(** * Snow melt model and calibration sweep (runoff_ans.py)

    A shallow embedding of the PCRaster script [runoff_ans.py]: the class
    [MyFirstModel] (constructor, [initial], [dynamic]) and the calibration
    loop that runs it once per candidate parameter value.

    Conventions of the embedding.
    - Scalars (PCRaster scalar cells, Python and numpy floats) are exact
      rationals [Q]; the rounding of binary floating point is outside the
      model, and equalities between computed quantities are [Qeq] ([==]).
      Only the candidate values of the sweep are followed a second time as
      binary64 numbers (module [Binary64]), where their rounding shows.
    - A map is a function from cells to values; the cells of the clone map
      are [0 .. ncells-1]; missing values are not modelled.
    - A [.tss] table is a function from the time step (1-based, as
      [timeinputscalar] reads it) to the value of its first column.
    - Arrays indexed by the time step are lists, read with [!!] and written
      with [<[i:=x]>]. *)

From Stdlib Require Import QArith Qminmax Qabs Qround Lqa ZArith Lia String.
From Stdlib Require Import PrimFloat SpecFloat FloatOps Uint63.
From stdpp Require Import base list.

Set Warnings "-inexact-float".

Local Open Scope Q_scope.

(** ** Numbers *)

Definition Qltb (x y : Q) : bool := negb (Qle_bool y x).

(** [numpy.rint]: the nearest integer, ties to the even one. *)
Definition rint (x : Q) : Z :=
  let f := Qfloor x in
  match Qcompare (x - inject_Z f) (1 # 2) with
  | Lt => f
  | Gt => (f + 1)%Z
  | Eq => if Z.even f then f else (f + 1)%Z
  end.

(** [numpy.round(x, decimals)]: scale by [10^decimals], [rint], scale back. *)
Definition round (x : Q) (decimals : nat) : Q :=
  inject_Z (rint (x * inject_Z (10 ^ Z.of_nat decimals)))
  / inject_Z (10 ^ Z.of_nat decimals).

Definition Qsum (l : list Q) : Q := foldr Qplus 0 l.

(** [numpy.mean]: the sum over the number of elements (of an array that
    is not empty). *)
Definition mean (l : list Q) : Q := Qsum l / inject_Z (Z.of_nat (length l)).

(** ** Maps and the drainage network *)

Definition cell := nat.
Definition Field := cell -> Q.

(** A local drain direction map: the downstream neighbour of each cell,
    [None] at a pit. *)
Definition Ldd := cell -> option cell.

(** [ifthenelse], cell by cell. *)
Definition ifthenelse (c : bool) (a b : Q) : Q := if c then a else b.
Definition pcrnot (b : bool) : bool := negb b.

(** [reaches ldd fuel u c]: following the downstream pointers from [u] for
    at most [fuel] steps passes through [c]. *)
Fixpoint reaches (ldd : Ldd) (fuel : nat) (u c : cell) : bool :=
  (u =? c)%nat ||
  match fuel with
  | O => false
  | S f => match ldd u with
           | Some v => reaches ldd f v c
           | None => false
           end
  end.

(** [flows ldd u c]: the downstream path from [u] passes through [c]. *)
Inductive flows (ldd : Ldd) : cell -> cell -> Prop :=
| flows_here u : flows ldd u u
| flows_down u v c : ldd u = Some v -> flows ldd v c -> flows ldd u c.

(** The cells that drain through [c], [c] itself included. *)
Definition catchment (n : nat) (ldd : Ldd) (c : cell) : list cell :=
  filter (fun u => reaches ldd n u c = true) (seq 0 n).

(** The cells whose downstream pointer targets [c]. *)
Definition upstream (n : nat) (ldd : Ldd) (c : cell) : list cell :=
  filter (fun v => ldd v = Some c) (seq 0 n).

(** Modelled from the spec: PCRaster's [accuflux] is not part of the
    script.  Flow accumulation sums the material of all upstream cells at
    each cell, following the drainage network: the material of the cell
    itself plus that of every cell draining through it. *)
Definition accuflux (n : nat) (ldd : Ldd) (material : Field) : Field :=
  fun c => Qsum (material <$> catchment n ldd c).

(** [drains n ldd fuel u]: from [u] the pointers stay on the grid and end
    in a pit within [fuel] cells. *)
Fixpoint drains (n : nat) (ldd : Ldd) (fuel : nat) (u : cell) : bool :=
  match fuel with
  | O => false
  | S f => match ldd u with
           | None => true
           | Some v => (v <? n)%nat && drains n ldd f v
           end
  end.

(** A sound drainage network on [n] cells: no pointer leaves the grid and
    there is no cycle. *)
Definition lddsound (n : nat) (ldd : Ldd) : bool :=
  forallb (drains n ldd n) (seq 0 n).

(** [mapmaximum] over the selected cells; PCRaster has no value for an
    empty selection, here it is 0. *)
Definition mapmaximum (l : list Q) : Q :=
  match l with
  | [] => 0
  | x :: l' => foldl Qmax x l'
  end.

(** Modelled from the spec: the helper [getCellValueAtBooleanLocation] is
    not part of the script.  It reads a map at the cells where the boolean
    map is true (the maximum over them); the gauge location has exactly one
    true cell, where it is the value of that cell. *)
Definition getCellValueAtBooleanLocation (n : nat) (location : cell -> bool)
    (map : Field) : Q :=
  mapmaximum (map <$> filter (fun c => location c = true) (seq 0 n)).

(** ** Inputs, parameters and the model object *)

Record Inputs := {
  ncells : nat;             (* the clone map dem.map *)
  cellarea : Q;             (* cellarea() *)
  dem_map : Field;          (* dem.map *)
  out_map : cell -> bool;   (* out.map *)
  precip_tss : nat -> Q;    (* precip.tss *)
  temp_tss : nat -> Q;      (* temp.tss *)
  observed_tss : nat -> Q   (* observed.tss *)
}.

(** The attributes set by [__init__]. *)
Record Parameters := {
  meltRate : Q;
  temperatureLapseRate : Q
}.

(** The attributes of a [MyFirstModel] after [initial]. *)
Record MyFirstModel := {
  parameters : Parameters;
  observationLocation : cell -> bool;
  temperatureCorrection : Field;
  snow : Field;
  ldd : Ldd;
  totPrecip : Q;
  modelled : list (option Q);   (* TimeoutputTimeseries 'modelled' *)
  diffOut : list (option Q);    (* TimeoutputTimeseries 'diff_outflow' *)
  simulation : list Q           (* numpy.zeros(nrTimeSteps) *)
}.

(** The library calls of a run that read an input, derive or use the
    drainage network, or write an output. *)
Inductive call :=
| Readmap (name : string)
| Report (name : string)
| Lddcreate
| Timeinputscalar (name : string)
| Accuflux
| Sample (name : string).

Definition is_Lddcreate (e : call) : bool :=
  match e with Lddcreate => true | _ => false end.

Definition MyFirstModel_init (myParameter : Q) (cali_on_melt_rate : bool)
    : Parameters :=
  if cali_on_melt_rate
  then {| meltRate := myParameter; temperatureLapseRate := 0.005 |}
  else {| temperatureLapseRate := myParameter; meltRate := 0.01 |}.

(** [TimeoutputTimeseries.sample]: the value of the current time step. *)
Definition sample (tss : list (option Q)) (currentTimeStep : nat) (v : Q)
    : list (option Q) :=
  <[(currentTimeStep - 1)%nat := Some v]> tss.

Section Model.
Variable inp : Inputs.
(** [lddcreate] is PCRaster's; the script only calls it. *)
Variable lddcreate : Field -> Q -> Q -> Q -> Q -> Ldd.

Definition elevationMeteoStation : Q := 208.1.

Definition initial (self : Parameters) (nrTimeSteps : nat)
    : MyFirstModel * list call :=
  let dem := dem_map inp in
  let elevationAboveMeteoStation : Field :=
    fun c => dem c - elevationMeteoStation in
  ({| parameters := self;
      observationLocation := out_map inp;
      temperatureCorrection :=
        (fun c => elevationAboveMeteoStation c * temperatureLapseRate self);
      snow := (fun _ => 0.0);
      ldd := lddcreate dem 1e31 1e31 1e31 1e31;
      totPrecip := 0;
      modelled := replicate nrTimeSteps None;
      diffOut := replicate nrTimeSteps None;
      simulation := replicate nrTimeSteps 0 |},
   [Readmap "out"; Readmap "dem"; Report "tempCor"; Lddcreate; Report "ldd"]).

(** The local variables of [dynamic] at time step [t]. *)
Definition precipitation (t : nat) : Q := precip_tss inp t.
Definition temperatureObserved (t : nat) : Q := temp_tss inp t.
Definition temperature (self : MyFirstModel) (t : nat) : Field :=
  fun c => temperatureObserved t - temperatureCorrection self c.
Definition freezing (self : MyFirstModel) (t : nat) (c : cell) : bool :=
  Qltb (temperature self t c) 0.0.
Definition snowFall (self : MyFirstModel) (t : nat) : Field :=
  fun c => ifthenelse (freezing self t c) (precipitation t) 0.0.
Definition rainFall (self : MyFirstModel) (t : nat) : Field :=
  fun c => ifthenelse (pcrnot (freezing self t c)) (precipitation t) 0.0.
(** [self.snow] after the snow fall is added (line 66). *)
Definition snowAccumulated (self : MyFirstModel) (t : nat) : Field :=
  fun c => snow self c + snowFall self t c.
Definition potentialMelt (self : MyFirstModel) (t : nat) : Field :=
  fun c => ifthenelse (pcrnot (freezing self t c))
             (temperature self t c * meltRate (parameters self)) 0.
Definition actualMelt (self : MyFirstModel) (t : nat) : Field :=
  fun c => Qmin (snowAccumulated self t c) (potentialMelt self t c).
(** [self.snow] after the melt is taken out (line 74). *)
Definition snowRemaining (self : MyFirstModel) (t : nat) : Field :=
  fun c => snowAccumulated self t c - actualMelt self t c.
Definition runoffGenerated (self : MyFirstModel) (t : nat) : Field :=
  fun c => actualMelt self t c + rainFall self t c.
Definition discharge (self : MyFirstModel) (t : nat) : Field :=
  accuflux (ncells inp) (ldd self)
    (fun c => runoffGenerated self t c * cellarea inp).
Definition runoffAtOutflowPoint (self : MyFirstModel) (t : nat) : Q :=
  getCellValueAtBooleanLocation (ncells inp) (observationLocation self)
    (discharge self t).
Definition observed (t : nat) : Q := observed_tss inp t.
Definition outflow_diff (self : MyFirstModel) (t : nat) : Q :=
  observed t - runoffAtOutflowPoint self t.

(** [dynamic] at [currentTimeStep() = t]. *)
Definition dynamic (self : MyFirstModel) (t : nat) : MyFirstModel :=
  {| parameters := parameters self;
     observationLocation := observationLocation self;
     temperatureCorrection := temperatureCorrection self;
     snow := snowRemaining self t;
     ldd := ldd self;
     totPrecip := totPrecip self;
     modelled := sample (modelled self) t (runoffAtOutflowPoint self t);
     diffOut := sample (diffOut self) t (outflow_diff self t);
     simulation := <[(t - 1)%nat := outflow_diff self t]> (simulation self) |}.

(** The calls of one [dynamic], in the order they are made. *)
Definition dynamic_calls : list call :=
  [Timeinputscalar "precip.tss"; Timeinputscalar "temp.tss";
   Report "snow"; Report "rg"; Accuflux; Report "q"; Report "roatop";
   Sample "modelled"; Timeinputscalar "observed.tss"; Sample "diff_outflow"].

(** [DynamicFramework(myModel, nrTimeSteps).run()]: [initial], then
    [dynamic] at the time steps [1 .. nrTimeSteps] in order. *)
Definition run (self : Parameters) (nrTimeSteps : nat)
    : MyFirstModel * list call :=
  let '(m, log) := initial self nrTimeSteps in
  (foldl dynamic m (seq 1 nrTimeSteps),
   log ++ (seq 1 nrTimeSteps ≫= fun _ => dynamic_calls)).

(** The model after the first [d] time steps of a run. *)
Definition after (self : Parameters) (nrTimeSteps d : nat) : MyFirstModel :=
  foldl dynamic (fst (initial self nrTimeSteps)) (seq 1 d).

End Model.

(** ** The calibration loop *)

(** [numpy.arange(start, stop, step)] read in exact arithmetic:
    [ceil((stop - start) / step)] values [start + i * step].  On doubles
    numpy rounds the quotient and the values, so that a range can have one
    value more, at or above [stop]; [Binary64.arange] follows the doubles.
    The two ranges written in the script have 19 candidates either way. *)
Definition arange (start stop step : Q) : list Q :=
  (fun i : nat => start + inject_Z (Z.of_nat i) * step)
    <$> seq 0 (Z.to_nat (Qceiling ((stop - start) / step))).

Definition calibrate_melt_rate : bool := true.

Definition my_range (calibrate_melt_rate : bool) : list Q :=
  if calibrate_melt_rate
  then arange 0.001 0.02 0.001
  else arange 0.0041 0.006 0.0001.

Definition NR_OF_TIME_STEPS : nat := 181.

(** One row of [result]: melt rate, lapse rate, mean discharge difference. *)
Definition row : Type := Q * Q * Q.

Section Calibration.
Variable inp : Inputs.
Variable lddcreate : Field -> Q -> Q -> Q -> Q -> Ldd.
Variable calibrate_melt_rate : bool.
Variable nrTimeSteps : nat.

(** The objective function of a finished run: mean of absolute
    differences. *)
Definition objective (myModel : MyFirstModel) : Q :=
  let runOffModelled := simulation myModel in
  mean (Qabs <$> runOffModelled).

(** The body of the loop over [my_range]; the state is the list [result]
    together with the calls made so far.  The table [np_result] receives
    the same rows under a header line and is left out, as are [print] and
    the plot. *)
Definition loop_body (st : list row * list call) (i : Q)
    : list row * list call :=
  let myModel := MyFirstModel_init i calibrate_melt_rate in
  let '(finished, log) := run inp lddcreate myModel nrTimeSteps in
  let diff := objective finished in
  (st.1 ++ [(round (meltRate (parameters finished)) 4,
             round (temperatureLapseRate (parameters finished)) 4,
             inject_Z (rint diff))],
   st.2 ++ log).

Definition calibration (my_range : list Q) : list row * list call :=
  foldl loop_body ([], []) my_range.

End Calibration.

(** The script as it is run. *)
Definition script (inp : Inputs) (lddcreate : Field -> Q -> Q -> Q -> Q -> Ldd)
    : list row * list call :=
  calibration inp lddcreate calibrate_melt_rate NR_OF_TIME_STEPS
    (my_range calibrate_melt_rate).

(** ** Quantities the properties are stated about *)

Section Observers.
Variable inp : Inputs.
Variable lddcreate : Field -> Q -> Q -> Q -> Q -> Ldd.

(** Precipitation received by a cell over the first [d] days. *)
Definition cumulativePrecipitation (d : nat) : Q :=
  Qsum (precipitation inp <$> seq 1 d).

(** Runoff generated by cell [c] over the first [d] days of a run. *)
Definition cumulativeRunoff (p : Parameters) (N : nat) (c : cell) (d : nat)
    : Q :=
  Qsum ((fun t => runoffGenerated inp (after inp lddcreate p N (t - 1)) t c)
          <$> seq 1 d).

(** The discharge modelled at the gauge on day [t] of a run, and its
    difference with the observed discharge. *)
Definition modelledDischarge (p : Parameters) (N : nat) (t : nat) : Q :=
  runoffAtOutflowPoint inp (after inp lddcreate p N (t - 1)) t.
Definition difference (p : Parameters) (N : nat) (t : nat) : Q :=
  outflow_diff inp (after inp lddcreate p N (t - 1)) t.

(** The row that belongs to a run with parameters [p]: both parameters
    rounded to 4 decimals and the rounded mean of the absolute daily
    differences of that run. *)
Definition recorded (p : Parameters) (N : nat) : row :=
  (round (meltRate p) 4,
   round (temperatureLapseRate p) 4,
   inject_Z (rint (mean (Qabs <$> (difference p N <$> seq 1 N))))).

(** Snow storage summed over the grid. *)
Definition totalSnow (m : MyFirstModel) : Q :=
  Qsum (snow m <$> seq 0 (ncells inp)).

(** The series a run leaves behind: per day the modelled discharge at the
    gauge and the difference with the observed discharge. *)
Definition SimulationResult (m : MyFirstModel) : list (option Q * Q) :=
  zip (modelled m) (simulation m).
End Observers.

(** ** The candidate values as binary64 numbers

    The parameter values never pass through a map: they are numpy doubles
    from [numpy.arange] to [numpy.round].  This part repeats [arange],
    [rint] and [round] on binary64, to see what the rows hold for the
    ranges written in the script. *)

Module Binary64.

Definition of_nat (i : nat) : float := of_uint63 (Uint63.of_Z (Z.of_nat i)).

(** The least integer not below a finite double. *)
Definition ceil (x : float) : Z :=
  match Prim2SF x with
  | S754_finite s m e =>
      let v := if s then Z.neg m else Z.pos m in
      if (0 <=? e)%Z then (v * 2 ^ e)%Z
      else (- ((- v) / 2 ^ (- e)))%Z
  | _ => 0%Z
  end.

(** [numpy.arange] on doubles: the first two elements are [start] and
    [start + step], the others [start + i * delta] with [delta] the
    difference of the first two. *)
Definition arange (start stop step : float) : list float :=
  let length := Z.to_nat (ceil ((stop - start) / step)) in
  let next := (start + step)%float in
  let delta := (next - start)%float in
  (fun i => match i with
            | O => start
            | 1%nat => next
            | _ => (start + of_nat i * delta)%float
            end) <$> seq 0 length.

(** [rint] on doubles of magnitude below [2^52]: adding and subtracting
    [2^52] rounds to the nearest integer, ties to even. *)
Definition two52 : float := 0x1p52%float.
Definition rint (x : float) : float :=
  if PrimFloat.ltb (abs x) two52
  then if PrimFloat.ltb x 0 then ((x - two52) + two52)%float
       else ((x + two52) - two52)%float
  else x.

(** [numpy.round(x, 4)]. *)
Definition round4 (x : float) : float :=
  (rint (x * 10000) / 10000)%float.

Definition my_range (calibrate_melt_rate : bool) : list float :=
  if calibrate_melt_rate
  then arange 0.001 0.02 0.001
  else arange 0.0041 0.006 0.0001.

(** The candidates of a range whose row holds another value than the run
    used, by their position in the range. *)
Definition recorded_differently (range : list float) : list nat :=
  filter (fun k => (fun x => PrimFloat.eqb (round4 x) x) <$> range !! k
                   = Some false)
    (seq 0 (length range)).

End Binary64.

(** ** Example catchments *)

(** A table given by its rows, the first row being time step 1. *)
Definition tss (rows : list Q) : nat -> Q :=
  fun t => default 0 (rows !! (t - 1)%nat).

(** One cell at the elevation of the meteo station, which is also the
    gauge. *)
Definition single_cell (precip temp obs : list Q) : Inputs :=
  {| ncells := 1; cellarea := 1;
     dem_map := fun _ => elevationMeteoStation;
     out_map := fun c => (c =? 0)%nat;
     precip_tss := tss precip; temp_tss := tss temp;
     observed_tss := tss obs |}.

(** A source cell 0 that drains into the sink cell 1, the gauge. *)
Definition two_cells (precip temp obs : list Q) : Inputs :=
  {| ncells := 2; cellarea := 1;
     dem_map := fun _ => elevationMeteoStation;
     out_map := fun c => (c =? 1)%nat;
     precip_tss := tss precip; temp_tss := tss temp;
     observed_tss := tss obs |}.

(** One cell 1000 above the meteo station. *)
Definition hill_cell (precip temp obs : list Q) : Inputs :=
  {| ncells := 1; cellarea := 1;
     dem_map := fun _ => elevationMeteoStation + 1000;
     out_map := fun c => (c =? 0)%nat;
     precip_tss := tss precip; temp_tss := tss temp;
     observed_tss := tss obs |}.

Definition chain : Ldd := fun c => if (c =? 0)%nat then Some 1%nat else None.

Definition all_pits : Field -> Q -> Q -> Q -> Q -> Ldd :=
  fun _ _ _ _ _ _ => None.
Definition to_chain : Field -> Q -> Q -> Q -> Q -> Ldd :=
  fun _ _ _ _ _ => chain.

(** ** The plot and the pits *)

(** The pits of a drainage network on [n] cells. *)
Definition pits (n : nat) (ldd : Ldd) : list cell :=
  filter (fun c => ldd c = None) (seq 0 n).

(** The column of [result] that holds the calibrated parameter. *)
Definition my_values (calibrate_melt_rate : bool) : nat :=
  if calibrate_melt_rate then 0%nat else 1%nat.

(** [i[k]] for a row [i] of [result]; there is no item beyond the third. *)
Definition item (i : row) (k : nat) : option Q := [i.1.1; i.1.2; i.2] !! k.

(** The points of the summary plot, one [plt.plot(i[my_values], i[2])] per
    row of [result]. *)
Definition plotted (calibrate_melt_rate : bool) (result : list row)
    : list (option Q * option Q) :=
  (fun i => (item i (my_values calibrate_melt_rate), item i 2)) <$> result.

(** * Properties *)

(** ** Comparison and sums *)

Lemma Qltb_lt x y : Qltb x y = true <-> x < y.
Proof.
  unfold Qltb. rewrite negb_true_iff.
  destruct (Qle_bool y x) eqn:E.
  - apply Qle_bool_iff in E. split; [discriminate | intros H; lra].
  - split; [intros _ | reflexivity].
    destruct (Qlt_le_dec x y) as [H|H]; [exact H|].
    apply Qle_bool_iff in H. congruence.
Qed.

Lemma Qltb_ge x y : Qltb x y = false <-> y <= x.
Proof.
  split.
  - intros E. destruct (Qlt_le_dec x y) as [H|H]; [|exact H].
    apply Qltb_lt in H. congruence.
  - intros H. destruct (Qltb x y) eqn:E; [|reflexivity].
    apply Qltb_lt in E. lra.
Qed.

Lemma Qsum_cons x l : Qsum (x :: l) = x + Qsum l.
Proof. reflexivity. Qed.

Lemma Qsum_app l k : Qsum (l ++ k) == Qsum l + Qsum k.
Proof.
  induction l as [|x l IH]; [simpl; lra|].
  rewrite <- app_comm_cons, !Qsum_cons, IH. lra.
Qed.

Lemma Qsum_le {A} (f g : A -> Q) (l : list A) :
  (forall x, f x <= g x) -> Qsum (f <$> l) <= Qsum (g <$> l).
Proof.
  intros H. induction l as [|x l IH]; [simpl; lra|].
  rewrite !fmap_cons, !Qsum_cons. specialize (H x). lra.
Qed.

(** ** One day of one cell *)

Section Day.
Variable inp : Inputs.
Variable lddcreate : Field -> Q -> Q -> Q -> Q -> Ldd.

Implicit Types (self : MyFirstModel) (p : Parameters) (c : cell).

Lemma after_0 p N : after inp lddcreate p N 0 = (initial inp lddcreate p N).1.
Proof. reflexivity. Qed.

Lemma after_S p N d :
  after inp lddcreate p N (S d)
  = dynamic inp (after inp lddcreate p N d) (S d).
Proof.
  unfold after. rewrite seq_S, foldl_app. reflexivity.
Qed.

Lemma run_after p N : (run inp lddcreate p N).1 = after inp lddcreate p N N.
Proof. reflexivity. Qed.

Lemma freezing_lt self t c :
  freezing inp self t c = true <-> temperature inp self t c < 0.
Proof.
  unfold freezing. rewrite Qltb_lt. split; intros H; lra.
Qed.

Lemma freezing_ge self t c :
  freezing inp self t c = false <-> 0 <= temperature inp self t c.
Proof.
  unfold freezing. rewrite Qltb_ge. split; intros H; lra.
Qed.

(** The frozen regime. *)
Lemma day_frozen self t c :
  temperature inp self t c < 0 ->
  snowFall inp self t c == precipitation inp t /\
  rainFall inp self t c == 0 /\
  potentialMelt inp self t c == 0.
Proof.
  intros H. apply freezing_lt in H.
  unfold snowFall, rainFall, potentialMelt, pcrnot. rewrite H. simpl.
  repeat split; lra.
Qed.

(** The melting regime. *)
Lemma day_melting self t c :
  0 <= temperature inp self t c ->
  snowFall inp self t c == 0 /\
  rainFall inp self t c == precipitation inp t /\
  potentialMelt inp self t c
    == temperature inp self t c * meltRate (parameters self).
Proof.
  intros H. apply freezing_ge in H.
  unfold snowFall, rainFall, potentialMelt, pcrnot. rewrite H. simpl.
  repeat split; lra.
Qed.

(** Every day's precipitation is either snow fall or rain fall. *)
Lemma precipitation_split self t c :
  snowFall inp self t c + rainFall inp self t c == precipitation inp t.
Proof.
  unfold snowFall, rainFall, pcrnot.
  destruct (freezing inp self t c); simpl; lra.
Qed.

Lemma actualMelt_le self t c :
  actualMelt inp self t c <= snowAccumulated inp self t c.
Proof. apply Q.le_min_l. Qed.

Lemma snow_dynamic self t c :
  snow (dynamic inp self t) c = snowRemaining inp self t c.
Proof. reflexivity. Qed.

(** The water balance of one day. *)
Lemma day_balance self t c :
  snow (dynamic inp self t) c + runoffGenerated inp self t c
  == snow self c + precipitation inp t.
Proof.
  rewrite snow_dynamic. unfold snowRemaining, runoffGenerated, snowAccumulated.
  pose proof (precipitation_split self t c). lra.
Qed.

(** Attributes that [dynamic] leaves alone. *)
Lemma after_frame p N d :
  parameters (after inp lddcreate p N d) = p /\
  temperatureCorrection (after inp lddcreate p N d)
    = temperatureCorrection (initial inp lddcreate p N).1 /\
  ldd (after inp lddcreate p N d)
    = lddcreate (dem_map inp) 1e31 1e31 1e31 1e31 /\
  observationLocation (after inp lddcreate p N d) = out_map inp.
Proof.
  induction d as [|d IH]; [repeat split|].
  rewrite after_S. exact IH.
Qed.

Lemma temperature_after p N d t c :
  temperature inp (after inp lddcreate p N d) t c
  = temp_tss inp t
    - (dem_map inp c - elevationMeteoStation) * temperatureLapseRate p.
Proof.
  unfold temperature.
  destruct (after_frame p N d) as (_ & -> & _). reflexivity.
Qed.

End Day.

(** ** The snow store over a run *)

Ltac qmin_cases :=
  repeat match goal with
  | |- context [Qmin ?a ?b] =>
      lazymatch goal with
      | _ : Qmin a b == _ |- _ => fail
      | _ => destruct (Q.min_spec a b) as [[? ?]|[? ?]]
      end
  | _ : context [Qmin ?a ?b] |- _ =>
      lazymatch goal with
      | _ : Qmin a b == _ |- _ => fail
      | _ => destruct (Q.min_spec a b) as [[? ?]|[? ?]]
      end
  end.

Section Store.
Variable inp : Inputs.
Variable lddcreate : Field -> Q -> Q -> Q -> Q -> Ldd.
Implicit Types (self : MyFirstModel) (p : Parameters) (c : cell).

Lemma snowRemaining_nonneg self t c : 0 <= snowRemaining inp self t c.
Proof.
  unfold snowRemaining. pose proof (actualMelt_le inp self t c). lra.
Qed.

Lemma snow_after_nonneg p N d c : 0 <= snow (after inp lddcreate p N d) c.
Proof.
  destruct d as [|d].
  - simpl. lra.
  - rewrite after_S, snow_dynamic. apply snowRemaining_nonneg.
Qed.

Lemma balance_after p N c d :
  cumulativePrecipitation inp d
  == cumulativeRunoff inp lddcreate p N c d
     + snow (after inp lddcreate p N d) c.
Proof.
  unfold cumulativePrecipitation, cumulativeRunoff.
  induction d as [|d IH]; [simpl; lra|].
  rewrite seq_S, !fmap_app, !Qsum_app, after_S. simpl.
  replace (d - 0)%nat with d by lia.
  pose proof (day_balance inp (after inp lddcreate p N d) (S d) c) as H.
  rewrite snow_dynamic in H. lra.
Qed.

(** With the same lapse rate, a larger melt rate never leaves more snow
    in a cell. *)
Lemma snow_monotone l m1 m2 N d c :
  m1 <= m2 ->
  snow (after inp lddcreate
          {| meltRate := m2; temperatureLapseRate := l |} N d) c
  <= snow (after inp lddcreate
             {| meltRate := m1; temperatureLapseRate := l |} N d) c.
Proof.
  intros Hm. induction d as [|d IH]; [simpl; lra|].
  rewrite !after_S, !snow_dynamic.
  unfold snowRemaining, actualMelt, snowAccumulated, potentialMelt, snowFall,
    freezing, pcrnot.
  rewrite !temperature_after.
  destruct (after_frame inp lddcreate
              {| meltRate := m1; temperatureLapseRate := l |} N d)
    as (-> & _).
  destruct (after_frame inp lddcreate
              {| meltRate := m2; temperatureLapseRate := l |} N d)
    as (-> & _).
  cbn [meltRate temperatureLapseRate].
  set (T := temp_tss inp (S d) - _).
  destruct (Qltb T 0.0) eqn:E; cbn [negb ifthenelse].
  - qmin_cases; lra.
  - apply Qltb_ge in E.
    assert (T * m1 <= T * m2) by nra.
    qmin_cases; lra.
Qed.

End Store.

(** ** The claims on the snow store *)

(** C1, as stated, fails: on a frozen day with negative precipitation the
    clamp [min] makes the actual melt negative instead of 0, and the store
    does not end at the store plus the precipitation. *)
Lemma frozen_day_negative_precipitation :
  let inp := single_cell [-5] [-1] [0] in
  let self := after inp all_pits (MyFirstModel_init 0.01 true) 1 0 in
  temperature inp self 1 0%nat < 0 /\
  ~ actualMelt inp self 1 0%nat == 0 /\
  ~ snow (dynamic inp self 1) 0%nat == snow self 0%nat + precipitation inp 1.
Proof.
  cbv zeta. split; [reflexivity|].
  split; vm_compute; discriminate.
Qed.

(** C1 (amended): the daily transition of a cell.  The corrected
    temperature is the observed temperature minus the correction
    [(elevation - 208.1) * temperatureLapseRate] fixed by [initial].  Below
    zero the precipitation is snow fall, added to the store, rain fall and
    potential melt are 0 and the actual melt is [min (store +
    precipitation) 0], which is 0 as soon as store plus precipitation is
    not negative (so for every non-negative precipitation).  From zero
    upwards the precipitation is rain fall, the potential melt is
    temperature times melt rate, the actual melt is the minimum of store
    and potential melt and is taken out of the store.  The runoff
    generated is actual melt plus rain fall. *)
Theorem daily_transition inp lddcreate p N d t c :
  let self := after inp lddcreate p N d in
  let correctedTemperature := temperature inp self t c in
  temperatureCorrection self c
    = (dem_map inp c - elevationMeteoStation) * temperatureLapseRate p /\
  correctedTemperature = temp_tss inp t - temperatureCorrection self c /\
  (correctedTemperature < 0 ->
     snowFall inp self t c == precipitation inp t /\
     rainFall inp self t c == 0 /\
     potentialMelt inp self t c == 0 /\
     actualMelt inp self t c == Qmin (snow self c + precipitation inp t) 0 /\
     snow (dynamic inp self t) c
       == snow self c + precipitation inp t - actualMelt inp self t c /\
     (0 <= snow self c + precipitation inp t ->
        actualMelt inp self t c == 0 /\
        snow (dynamic inp self t) c == snow self c + precipitation inp t) /\
     (0 <= precipitation inp t -> actualMelt inp self t c == 0)) /\
  (0 <= correctedTemperature ->
     snowFall inp self t c == 0 /\
     rainFall inp self t c == precipitation inp t /\
     potentialMelt inp self t c == correctedTemperature * meltRate p /\
     actualMelt inp self t c
       == Qmin (snow self c) (potentialMelt inp self t c) /\
     snow (dynamic inp self t) c == snow self c - actualMelt inp self t c) /\
  runoffGenerated inp self t c
    == actualMelt inp self t c + rainFall inp self t c.
Proof.
  intros self T.
  destruct (after_frame inp lddcreate p N d) as (Hp & Hc & _).
  fold self in Hp, Hc.
  split; [rewrite Hc; reflexivity|].
  split; [reflexivity|].
  pose proof (snow_after_nonneg inp lddcreate p N d c) as Hs. fold self in Hs.
  split; [|split].
  - intros HT. destruct (day_frozen inp self t c HT) as (Hsf & Hrf & Hpm).
    rewrite snow_dynamic. unfold snowRemaining, actualMelt, snowAccumulated.
    repeat split; try intros ?; qmin_cases; lra.
  - intros HT. destruct (day_melting inp self t c HT) as (Hsf & Hrf & Hpm).
    rewrite Hp in Hpm.
    rewrite snow_dynamic. unfold snowRemaining, actualMelt, snowAccumulated.
    repeat split; try assumption; qmin_cases; lra.
  - unfold runoffGenerated. lra.
Qed.

Lemma daily_transition_witness :
  let inp := single_cell [10; 0; 0] [-1; 5; 5] [0; 0; 0] in
  let p := MyFirstModel_init 0.1 true in
  let self := after inp all_pits p 3 1 in
  actualMelt inp self 2 0%nat
    == Qmin (snow self 0%nat) (potentialMelt inp self 2 0%nat) /\
  snow (dynamic inp self 2) 0%nat
    == snow self 0%nat - actualMelt inp self 2 0%nat.
Proof.
  cbv zeta.
  destruct (daily_transition (single_cell [10; 0; 0] [-1; 5; 5] [0; 0; 0])
              all_pits (MyFirstModel_init 0.1 true) 3 1 2 0%nat)
    as (_ & _ & _ & Hmelt & _).
  destruct Hmelt as (_ & _ & _ & Ham & Hsnow); [vm_compute; discriminate|].
  split; assumption.
Defined.

(** C2: over every horizon, the precipitation a cell received equals the
    runoff it generated plus the snow it stores at the end, the store
    being empty at the start. *)
Theorem mass_conservation inp lddcreate p N c :
  snow (initial inp lddcreate p N).1 c == 0 /\
  (forall d,
     cumulativePrecipitation inp d
     == cumulativeRunoff inp lddcreate p N c d
        + snow (after inp lddcreate p N d) c) /\
  cumulativePrecipitation inp N
  == cumulativeRunoff inp lddcreate p N c N
     + snow (run inp lddcreate p N).1 c.
Proof.
  split; [simpl; lra|]. split.
  - intros d. apply balance_after.
  - rewrite run_after. apply balance_after.
Qed.

(** C3: the snow store of every cell is non-negative at the start and
    after every daily update, whatever the precipitation and temperature
    series are; the update takes out [min] of the store and the potential
    melt, which is never more than the store. *)
Theorem snow_nonnegative inp lddcreate p N d c :
  0 <= snow (after inp lddcreate p N d) c /\
  actualMelt inp (after inp lddcreate p N d) (S d) c
    == Qmin (snowAccumulated inp (after inp lddcreate p N d) (S d) c)
         (potentialMelt inp (after inp lddcreate p N d) (S d) c) /\
  0 <= snow (run inp lddcreate p N).1 c.
Proof.
  split; [apply snow_after_nonneg|]. split; [reflexivity|].
  rewrite run_after. apply snow_after_nonneg.
Qed.

(** C4, as stated, fails in its strict part: when it freezes on every day
    the final snow storage is the same for two different melt rates,
    though nothing has melted. *)
Lemma melt_rate_not_strict :
  let inp := single_cell [10] [-1] [0] in
  let final m :=
    (run inp all_pits {| meltRate := m; temperatureLapseRate := 0.005 |} 1).1 in
  0.1 < 0.2 /\
  ~ totalSnow inp (final 0.2) < totalSnow inp (final 0.1) /\
  0 < totalSnow inp (final 0.1) /\ 0 < totalSnow inp (final 0.2).
Proof.
  cbv zeta. split; [reflexivity|]. split; [|split; reflexivity].
  vm_compute. discriminate.
Qed.

(** A sum grows strictly when every term grows weakly and one strictly. *)
Lemma Qsum_lt {A} (f g : A -> Q) (l : list A) x0 :
  (forall x, f x <= g x) -> x0 ∈ l -> f x0 < g x0 ->
  Qsum (f <$> l) < Qsum (g <$> l).
Proof.
  intros H Hx0 Hlt. induction l as [|x l IH]; [inversion Hx0|].
  rewrite !fmap_cons, !Qsum_cons.
  pose proof (Qsum_le f g l H) as Hl. pose proof (H x) as Hx.
  apply elem_of_cons in Hx0 as [<-|Hx0]; [lra|].
  specialize (IH Hx0). lra.
Qed.

Section Strict.
Variable inp : Inputs.
Variable lddcreate : Field -> Q -> Q -> Q -> Q -> Ldd.
Variables l m1 m2 : Q.
Variable N : nat.
Variable c : cell.

Let p1 := {| meltRate := m1; temperatureLapseRate := l |}.
Let p2 := {| meltRate := m2; temperatureLapseRate := l |}.

(** A melting day above zero that leaves snow under the smaller melt rate
    leaves strictly less under the larger one. *)
Lemma snow_strict_start d :
  m1 < m2 ->
  0 < temp_tss inp (S d)
      - (dem_map inp c - elevationMeteoStation) * l ->
  0 < snow (after inp lddcreate p1 N (S d)) c ->
  snow (after inp lddcreate p2 N (S d)) c
  < snow (after inp lddcreate p1 N (S d)) c.
Proof.
  intros Hm HT Hs.
  pose proof (snow_monotone inp lddcreate l m1 m2 N d c (Qlt_le_weak _ _ Hm))
    as Hle.
  fold p1 p2 in Hle.
  rewrite !after_S, !snow_dynamic in *.
  unfold snowRemaining, actualMelt, snowAccumulated, potentialMelt, snowFall,
    freezing, pcrnot in *.
  rewrite !temperature_after in *.
  destruct (after_frame inp lddcreate p1 N d) as (Hp1 & _).
  destruct (after_frame inp lddcreate p2 N d) as (Hp2 & _).
  rewrite Hp1 in *. rewrite Hp2 in *.
  cbn [p1 p2 meltRate temperatureLapseRate] in *.
  set (T := temp_tss inp (S d) - _) in *.
  assert (E : Qltb T 0.0 = false) by (apply Qltb_ge; lra).
  rewrite E in *. cbn [negb ifthenelse] in *.
  assert (T * m1 < T * m2) by nra.
  qmin_cases; lra.
Qed.

(** A strict gap between the two stores stays strict over a day that
    leaves snow under the smaller melt rate. *)
Lemma snow_strict_keep d :
  m1 <= m2 ->
  snow (after inp lddcreate p2 N d) c < snow (after inp lddcreate p1 N d) c ->
  0 < snow (after inp lddcreate p1 N (S d)) c ->
  snow (after inp lddcreate p2 N (S d)) c
  < snow (after inp lddcreate p1 N (S d)) c.
Proof.
  intros Hm Hlt Hs.
  rewrite !after_S, !snow_dynamic in *.
  unfold snowRemaining, actualMelt, snowAccumulated, potentialMelt, snowFall,
    freezing, pcrnot in *.
  rewrite !temperature_after in *.
  destruct (after_frame inp lddcreate p1 N d) as (Hp1 & _).
  destruct (after_frame inp lddcreate p2 N d) as (Hp2 & _).
  rewrite Hp1 in *. rewrite Hp2 in *.
  cbn [p1 p2 meltRate temperatureLapseRate] in *.
  set (T := temp_tss inp (S d) - _) in *.
  destruct (Qltb T 0.0) eqn:E; cbn [negb ifthenelse] in *.
  - qmin_cases; lra.
  - apply Qltb_ge in E. assert (T * m1 <= T * m2) by nra.
    qmin_cases; lra.
Qed.

(** From a day above zero on, as long as the store under the smaller melt
    rate stays positive, the store under the larger one is strictly
    smaller. *)
Lemma snow_strict t0 d :
  m1 < m2 -> (1 <= t0 <= d)%nat ->
  0 < temp_tss inp t0 - (dem_map inp c - elevationMeteoStation) * l ->
  (forall t, (t0 <= t <= d)%nat ->
     0 < snow (after inp lddcreate p1 N t) c) ->
  snow (after inp lddcreate p2 N d) c < snow (after inp lddcreate p1 N d) c.
Proof.
  intros Hm Ht0 HT Hpos. induction d as [|d IH]; [lia|].
  destruct (Nat.eq_dec t0 (S d)) as [->|Hne].
  - apply snow_strict_start; [exact Hm|exact HT|apply Hpos; lia].
  - apply snow_strict_keep; [apply Qlt_le_weak, Hm| |apply Hpos; lia].
    apply IH; [lia|]. intros t Ht. apply Hpos. lia.
Qed.

End Strict.

(** C4 (amended): with the forcing and the lapse rate fixed, the larger of
    two melt rates ends the horizon with a total snow storage that is less
    than or equal to that of the smaller one; it is strictly less when the
    melt rates differ and some cell of the grid has a day with corrected
    temperature above zero from which on its storage under the smaller
    melt rate stays positive to the end of the horizon. *)
Theorem melt_rate_monotone inp lddcreate l m1 m2 N :
  m1 <= m2 ->
  let final m :=
    (run inp lddcreate {| meltRate := m; temperatureLapseRate := l |} N).1 in
  totalSnow inp (final m2) <= totalSnow inp (final m1) /\
  (m1 < m2 ->
   forall c t0, (c < ncells inp)%nat -> (1 <= t0 <= N)%nat ->
     0 < temp_tss inp t0 - (dem_map inp c - elevationMeteoStation) * l ->
     (forall t, (t0 <= t <= N)%nat ->
        0 < snow (after inp lddcreate
                    {| meltRate := m1; temperatureLapseRate := l |} N t) c) ->
     totalSnow inp (final m2) < totalSnow inp (final m1)).
Proof.
  intros Hm final. unfold final, totalSnow. rewrite !run_after. split.
  - apply Qsum_le. intros c. apply snow_monotone, Hm.
  - intros Hlt c t0 Hc Ht0 HT Hpos.
    apply (Qsum_lt _ _ _ c).
    + intros x. apply snow_monotone, Hm.
    + apply elem_of_seq. lia.
    + apply (snow_strict inp lddcreate l m1 m2 N c t0 N Hlt Ht0 HT Hpos).
Qed.

Lemma melt_rate_monotone_witness :
  let inp := single_cell [10; 0; 0] [-1; 5; 5] [0; 0; 0] in
  let final m :=
    (run inp all_pits {| meltRate := m; temperatureLapseRate := 0.005 |} 3).1 in
  0.1 <= 0.2 /\ 0.1 < 0.2 /\
  totalSnow inp (final 0.2) <= totalSnow inp (final 0.1) /\
  totalSnow inp (final 0.2) < totalSnow inp (final 0.1).
Proof.
  cbv zeta.
  destruct (melt_rate_monotone (single_cell [10; 0; 0] [-1; 5; 5] [0; 0; 0])
              all_pits 0.005 0.1 0.2 3) as [Hle Hlt];
    [vm_compute; discriminate|].
  split; [vm_compute; discriminate|]. split; [reflexivity|].
  split; [exact Hle|].
  apply (Hlt eq_refl 0%nat 2%nat); [simpl; lia|lia|reflexivity|].
  intros [|[|[|[|t]]]] Ht; try lia; reflexivity.
Defined.

(** ** The single-cell scenario *)

(** C9: one cell at the elevation of the reference station, three days
    with precipitation 10, 0, 0 and observed temperature -1, 5, 5, melt
    rate 0.1.  The temperature correction is 0; day 1 is frozen and ends
    with 10 in the store and no runoff; days 2 and 3 are melting days with
    potential and actual melt 0.5 and runoff 0.5, the store ending at 9.5
    and at 9. *)
Theorem single_cell_scenario inp lddcreate p c :
  dem_map inp c == elevationMeteoStation ->
  meltRate p == 0.1 ->
  precip_tss inp 1 == 10 -> precip_tss inp 2 == 0 -> precip_tss inp 3 == 0 ->
  temp_tss inp 1 == -1 -> temp_tss inp 2 == 5 -> temp_tss inp 3 == 5 ->
  let day d := after inp lddcreate p 3 d in
  temperatureCorrection (day 0%nat) c == 0 /\
  (freezing inp (day 0%nat) 1 c = true /\
   snow (day 1%nat) c == 10 /\
   runoffGenerated inp (day 0%nat) 1 c == 0) /\
  (freezing inp (day 1%nat) 2 c = false /\
   potentialMelt inp (day 1%nat) 2 c == 0.5 /\
   actualMelt inp (day 1%nat) 2 c == 0.5 /\
   snow (day 2%nat) c == 9.5 /\
   runoffGenerated inp (day 1%nat) 2 c == 0.5) /\
  (freezing inp (day 2%nat) 3 c = false /\
   potentialMelt inp (day 2%nat) 3 c == 0.5 /\
   actualMelt inp (day 2%nat) 3 c == 0.5 /\
   snow (day 3%nat) c == 9 /\
   runoffGenerated inp (day 2%nat) 3 c == 0.5) /\
  snow (run inp lddcreate p 3).1 c == 9.
Proof.
  intros Hdem Hm P1 P2 P3 T1 T2 T3 day.
  assert (Hcor : (dem_map inp c - elevationMeteoStation)
                 * temperatureLapseRate p == 0) by (rewrite Hdem; ring).
  assert (HT : forall d t, temperature inp (day d) t c == temp_tss inp t).
  { intros d t. unfold day. rewrite temperature_after. lra. }
  assert (Hpar : forall d, meltRate (parameters (day d)) == 0.1).
  { intros d. unfold day.
    destruct (after_frame inp lddcreate p 3 d) as (-> & _). exact Hm. }
  assert (S0 : snow (day 0%nat) c == 0) by (simpl; lra).
  (* day 1 *)
  pose proof (HT 0%nat 1%nat) as E1.
  assert (F1 : temperature inp (day 0%nat) 1 c < 0) by lra.
  destruct (day_frozen inp _ _ _ F1) as (Hsf1 & Hrf1 & Hpm1).
  assert (A1 : actualMelt inp (day 0%nat) 1 c == 0).
  { unfold actualMelt, snowAccumulated, precipitation in *. qmin_cases; lra. }
  assert (S1 : snow (day 1%nat) c == 10).
  { unfold day. rewrite after_S, snow_dynamic. fold (day 0%nat).
    unfold snowRemaining, snowAccumulated, precipitation in *. lra. }
  (* day 2 *)
  pose proof (HT 1%nat 2%nat) as E2. pose proof (Hpar 1%nat) as M2.
  assert (F2 : 0 <= temperature inp (day 1%nat) 2 c) by lra.
  destruct (day_melting inp _ _ _ F2) as (Hsf2 & Hrf2 & Hpm2).
  assert (PM2 : potentialMelt inp (day 1%nat) 2 c == 0.5)
    by (rewrite Hpm2, E2, M2, T2; reflexivity).
  assert (A2 : actualMelt inp (day 1%nat) 2 c == 0.5).
  { unfold actualMelt, snowAccumulated. qmin_cases; lra. }
  assert (S2 : snow (day 2%nat) c == 9.5).
  { unfold day. rewrite after_S, snow_dynamic. fold (day 1%nat).
    unfold snowRemaining, snowAccumulated. lra. }
  (* day 3 *)
  pose proof (HT 2%nat 3%nat) as E3. pose proof (Hpar 2%nat) as M3.
  assert (F3 : 0 <= temperature inp (day 2%nat) 3 c) by lra.
  destruct (day_melting inp _ _ _ F3) as (Hsf3 & Hrf3 & Hpm3).
  assert (PM3 : potentialMelt inp (day 2%nat) 3 c == 0.5)
    by (rewrite Hpm3, E3, M3, T3; reflexivity).
  assert (A3 : actualMelt inp (day 2%nat) 3 c == 0.5).
  { unfold actualMelt, snowAccumulated. qmin_cases; lra. }
  assert (S3 : snow (day 3%nat) c == 9).
  { unfold day. rewrite after_S, snow_dynamic. fold (day 2%nat).
    unfold snowRemaining, snowAccumulated. lra. }
  split; [simpl; exact Hcor|].
  split; [|split; [|split]].
  - split; [apply freezing_lt, F1|]. split; [exact S1|].
    unfold runoffGenerated. lra.
  - split; [apply freezing_ge, F2|].
    repeat split; try assumption.
    unfold runoffGenerated, precipitation in *. lra.
  - split; [apply freezing_ge, F3|].
    repeat split; try assumption.
    unfold runoffGenerated, precipitation in *. lra.
  - rewrite run_after. exact S3.
Qed.

Lemma single_cell_scenario_witness :
  let inp := single_cell [10; 0; 0] [-1; 5; 5] [0; 0; 0] in
  let p := MyFirstModel_init 0.1 true in
  snow (after inp all_pits p 3 1) 0%nat == 10 /\
  snow (after inp all_pits p 3 2) 0%nat == 9.5 /\
  snow (run inp all_pits p 3).1 0%nat == 9.
Proof.
  cbv zeta.
  destruct (single_cell_scenario
              (single_cell [10; 0; 0] [-1; 5; 5] [0; 0; 0]) all_pits
              (MyFirstModel_init 0.1 true) 0%nat)
    as (_ & (_ & S1 & _) & (_ & _ & _ & S2 & _) & _ & S3);
    try reflexivity.
  repeat split; assumption.
Defined.

(** ** Flow accumulation *)

Lemma Qsum_bind {A} (f : A -> Q) (g : A -> list A) (l : list A) :
  Qsum (f <$> (l ≫= g)) == Qsum ((fun v => Qsum (f <$> g v)) <$> l).
Proof.
  induction l as [|x l IH]; [reflexivity|].
  rewrite bind_cons, fmap_app, Qsum_app, fmap_cons, Qsum_cons, IH. reflexivity.
Qed.

Lemma Qsum_Permutation (l k : list Q) : l ≡ₚ k -> Qsum l == Qsum k.
Proof.
  induction 1 as [|x l k _ IH|x y l|l k m _ IH1 _ IH2].
  - reflexivity.
  - rewrite !Qsum_cons, IH. reflexivity.
  - rewrite !Qsum_cons. lra.
  - rewrite IH1. exact IH2.
Qed.

Section Network.
Variable n : nat.
Variable ldd : Ldd.
Hypothesis sound : lddsound n ldd = true.

Lemma sound_drains u : (u < n)%nat -> drains n ldd n u = true.
Proof.
  intros Hu. unfold lddsound in sound.
  rewrite forallb_forall in sound. apply sound, in_seq. lia.
Qed.

Lemma reaches_flows fuel u c : reaches ldd fuel u c = true -> flows ldd u c.
Proof.
  revert u. induction fuel as [|f IH]; intros u; simpl.
  - rewrite orb_false_r. intros ->%Nat.eqb_eq. constructor.
  - intros [->%Nat.eqb_eq|H]%orb_true_iff; [constructor|].
    destruct (ldd u) as [v|] eqn:E; [|discriminate].
    eapply flows_down; eauto.
Qed.

Lemma flows_reaches fuel u c :
  drains n ldd fuel u = true -> flows ldd u c ->
  reaches ldd (pred fuel) u c = true.
Proof.
  intros Hd Hf. revert fuel Hd.
  induction Hf as [u|u v c E _ IH]; intros fuel Hd.
  - destruct (pred fuel); simpl; rewrite Nat.eqb_refl; reflexivity.
  - destruct fuel as [|f]; [discriminate|]. simpl in Hd. rewrite E in Hd.
    apply andb_true_iff in Hd as [_ Hd].
    specialize (IH f Hd).
    destruct f as [|f]; [discriminate|].
    cbn [pred] in *. cbn [reaches]. rewrite E. cbn beta iota. rewrite IH.
    apply orb_true_r.
Qed.

Lemma reaches_unfold fuel u c :
  reaches ldd (S fuel) u c
  = (u =? c)%nat
    || match ldd u with Some v => reaches ldd fuel v c | None => false end.
Proof. reflexivity. Qed.

Lemma reaches_S fuel u c :
  reaches ldd fuel u c = true -> reaches ldd (S fuel) u c = true.
Proof.
  revert u. induction fuel as [|f IH]; intros u.
  - simpl. rewrite orb_false_r. intros ->. reflexivity.
  - rewrite (reaches_unfold (S f)), (reaches_unfold f).
    intros [->|H]%orb_true_iff; [reflexivity|].
    destruct (ldd u) as [v|]; [|discriminate].
    rewrite (IH _ H). apply orb_true_r.
Qed.

Lemma flows_on_grid u c : (u < n)%nat -> flows ldd u c -> (c < n)%nat.
Proof.
  intros Hu Hf. induction Hf as [u|u v c E _ IH]; [exact Hu|].
  apply IH. pose proof (sound_drains u Hu) as Hd.
  destruct n as [|m]; [lia|]. simpl in Hd. rewrite E in Hd.
  apply andb_true_iff in Hd as [Hv _]. apply Nat.ltb_lt in Hv. exact Hv.
Qed.

Lemma flows_snoc u v c : flows ldd u v -> ldd v = Some c -> flows ldd u c.
Proof.
  intros Hf E. induction Hf as [u|u w v E' _ IH].
  - eapply flows_down; [exact E|constructor].
  - eapply flows_down; [exact E'|]. apply IH, E.
Qed.

Lemma flows_last u c :
  flows ldd u c -> u = c \/ exists v, flows ldd u v /\ ldd v = Some c.
Proof.
  induction 1 as [u|u w c E _ IH]; [left; reflexivity|right].
  destruct IH as [->|(v & Hv & Ev)].
  - exists u. split; [constructor|exact E].
  - exists v. split; [eapply flows_down; eauto|exact Ev].
Qed.

(** No cell lies on a cycle. *)
Lemma no_cycle fuel u v :
  drains n ldd fuel u = true -> flows ldd u v -> ldd v = Some u -> False.
Proof.
  revert u v. induction fuel as [|f IH]; intros u v Hd Hf E; [discriminate|].
  simpl in Hd. destruct Hf as [u|u w v E' Hf].
  - rewrite E in Hd. apply andb_true_iff in Hd as [_ Hd].
    apply (IH u u Hd); [constructor|exact E].
  - rewrite E' in Hd. apply andb_true_iff in Hd as [_ Hd].
    apply (IH w u Hd); [|exact E'].
    eapply flows_snoc; eauto.
Qed.

Lemma flows_linear u a b :
  flows ldd u a -> flows ldd u b -> flows ldd a b \/ flows ldd b a.
Proof.
  intros Ha. revert b. induction Ha as [u|u w a E Ha IH]; intros b Hb.
  - left. exact Hb.
  - destruct Hb as [u|u w' b E' Hb].
    + right. eapply flows_down; eauto.
    + rewrite E in E'. injection E' as <-. apply IH, Hb.
Qed.

(** On the path from a cell, at most one cell points to [c]. *)
Lemma predecessor_unique u v1 v2 c :
  (u < n)%nat -> flows ldd u v1 -> flows ldd u v2 ->
  ldd v1 = Some c -> ldd v2 = Some c -> v1 = v2.
Proof.
  intros Hu H1 H2 E1 E2.
  assert (Hc : (c < n)%nat).
  { eapply flows_on_grid; [exact Hu|]. eapply flows_snoc; eauto. }
  pose proof (sound_drains c Hc) as Hd.
  destruct (flows_linear u v1 v2 H1 H2) as [H|H].
  - destruct H as [|v1 w v2 E H]; [reflexivity|].
    rewrite E1 in E. injection E as <-.
    destruct (no_cycle _ _ _ Hd H E2).
  - destruct H as [|v2 w v1 E H]; [reflexivity|].
    rewrite E2 in E. injection E as <-.
    destruct (no_cycle _ _ _ Hd H E1).
Qed.

Lemma elem_of_catchment u c :
  u ∈ catchment n ldd c <-> (u < n)%nat /\ flows ldd u c.
Proof.
  unfold catchment. rewrite list_elem_of_filter, elem_of_seq. split.
  - intros [H Hu]. split; [lia|]. eapply reaches_flows, H.
  - intros [Hu Hf]. split; [|lia].
    pose proof (flows_reaches n u c (sound_drains u Hu) Hf) as H.
    destruct n as [|m]; [lia|]. apply reaches_S. exact H.
Qed.

Lemma elem_of_upstream v c :
  v ∈ upstream n ldd c <-> (v < n)%nat /\ ldd v = Some c.
Proof.
  unfold upstream. rewrite list_elem_of_filter, elem_of_seq.
  split; intros [? ?]; split; auto; lia.
Qed.

(** The catchment of a cell is the cell and the catchments of the cells
    that point to it. *)
Lemma catchment_upstream c :
  (c < n)%nat ->
  catchment n ldd c ≡ₚ c :: (upstream n ldd c ≫= catchment n ldd).
Proof.
  intros Hc. apply NoDup_Permutation.
  - apply NoDup_filter, NoDup_seq.
  - apply NoDup_cons. split.
    + intros (v & Hcv & Hv)%list_elem_of_bind.
      apply elem_of_catchment in Hcv as [_ Hf].
      apply elem_of_upstream in Hv as [_ E].
      exact (no_cycle _ _ _ (sound_drains c Hc) Hf E).
    + apply NoDup_bind.
      * intros v1 v2 u [_ E1]%elem_of_upstream [_ E2]%elem_of_upstream
          [Hu H1]%elem_of_catchment [_ H2]%elem_of_catchment.
        eapply predecessor_unique; eauto.
      * intros v _. apply NoDup_filter, NoDup_seq.
      * apply NoDup_filter, NoDup_seq.
  - intros u. rewrite elem_of_cons, list_elem_of_bind, elem_of_catchment.
    split.
    + intros [Hu Hf]. destruct (flows_last _ _ Hf) as [->|(v & Hv & E)].
      * left. reflexivity.
      * right. exists v. rewrite elem_of_catchment, elem_of_upstream.
        pose proof (flows_on_grid _ _ Hu Hv). auto.
    + intros [->|(v & Hu & Hv)]; [split; [exact Hc|constructor]|].
      apply elem_of_catchment in Hu as [Hu Hf].
      apply elem_of_upstream in Hv as [_ E].
      split; [exact Hu|]. eapply flows_snoc; eauto.
Qed.

(** The accumulated flux of a cell: its own material plus the
    accumulated flux of the cells that point to it. *)
Lemma accuflux_upstream material c :
  (c < n)%nat ->
  accuflux n ldd material c
  == material c
     + Qsum (accuflux n ldd material <$> upstream n ldd c).
Proof.
  intros Hc. unfold accuflux.
  rewrite (Qsum_Permutation _ _
             (fmap_Permutation material _ _ (catchment_upstream c Hc))).
  rewrite fmap_cons, Qsum_cons, Qsum_bind. reflexivity.
Qed.

(** A headwater cell, to which no cell points, passes on its own
    material only. *)
Lemma accuflux_headwater material c :
  (c < n)%nat -> upstream n ldd c = [] ->
  accuflux n ldd material c == material c.
Proof.
  intros Hc E. rewrite accuflux_upstream, E by exact Hc. simpl. lra.
Qed.

End Network.

Lemma gauge_value n location map g :
  filter (fun c => location c = true) (seq 0 n) = [g] ->
  getCellValueAtBooleanLocation n location map = map g.
Proof.
  intros E. unfold getCellValueAtBooleanLocation. rewrite E. reflexivity.
Qed.

(** C6: on a sound drainage network the accumulated discharge of a cell is
    its own runoff times the cell area plus the accumulated discharge of
    the cells that point to it; for a source draining into a sink, both of
    area 1 and with runoff 1, that is 1 at the source and 2 at the sink;
    and the value read at the outflow point is the accumulated discharge
    of the one cell where the gauge map is true. *)
Theorem flow_accumulation inp self t :
  lddsound (ncells inp) (ldd self) = true ->
  (forall c, (c < ncells inp)%nat ->
     discharge inp self t c
     == runoffGenerated inp self t c * cellarea inp
        + Qsum (discharge inp self t <$> upstream (ncells inp) (ldd self) c)) /\
  (ncells inp = 2%nat -> ldd self 0%nat = Some 1%nat -> ldd self 1%nat = None ->
   cellarea inp == 1 ->
   runoffGenerated inp self t 0%nat == 1 ->
   runoffGenerated inp self t 1%nat == 1 ->
   discharge inp self t 1%nat == 2 /\ discharge inp self t 0%nat == 1) /\
  (forall g,
     filter (fun c => observationLocation self c = true) (seq 0 (ncells inp))
       = [g] ->
     runoffAtOutflowPoint inp self t = discharge inp self t g).
Proof.
  intros Hsound.
  assert (Hacc : forall c, (c < ncells inp)%nat ->
     discharge inp self t c
     == runoffGenerated inp self t c * cellarea inp
        + Qsum (discharge inp self t <$> upstream (ncells inp) (ldd self) c)).
  { intros c Hc. unfold discharge. apply accuflux_upstream; assumption. }
  split; [exact Hacc|]. split.
  - intros Hn E0 E1 Ha R0 R1.
    pose proof (Hacc 0%nat) as H0. pose proof (Hacc 1%nat) as H1.
    rewrite Hn in H0, H1. unfold upstream in H0, H1. cbn [seq] in H0, H1.
    rewrite !filter_cons, filter_nil, E0, E1 in H0, H1.
    repeat case_decide; try done.
    specialize (H0 ltac:(lia)). specialize (H1 ltac:(lia)).
    rewrite Ha, R0 in H0. rewrite Ha, R1 in H1.
    rewrite fmap_cons, !Qsum_cons in H1. simpl in H0, H1. split; lra.
  - intros g Hg. unfold runoffAtOutflowPoint. apply gauge_value, Hg.
Qed.

Lemma flow_accumulation_witness :
  let inp := two_cells [1] [5] [0] in
  let self := (initial inp to_chain (MyFirstModel_init 0.01 true) 1).1 in
  lddsound (ncells inp) (ldd self) = true /\
  discharge inp self 1 1%nat == 2 /\
  discharge inp self 1 0%nat == 1 /\
  runoffAtOutflowPoint inp self 1 = discharge inp self 1 1%nat.
Proof.
  cbv zeta.
  destruct (flow_accumulation (two_cells [1] [5] [0])
              (initial (two_cells [1] [5] [0]) to_chain
                 (MyFirstModel_init 0.01 true) 1).1 1)
    as (_ & Htwo & Hgauge); [reflexivity|].
  destruct Htwo as [H1 H0]; try reflexivity.
  split; [reflexivity|]. split; [exact H1|]. split; [exact H0|].
  apply Hgauge. reflexivity.
Defined.

(** ** The series of a run *)

Lemma fill_step {A} (f : nat -> A) (z : A) (N d : nat) :
  (d < N)%nat ->
  <[d := f (S d)]> ((f <$> seq 1 d) ++ replicate (N - d) z)
  = (f <$> seq 1 (S d)) ++ replicate (N - S d) z.
Proof.
  intros Hd.
  rewrite insert_app_r_alt by (rewrite length_fmap, length_seq; lia).
  rewrite length_fmap, length_seq, Nat.sub_diag.
  replace (N - d)%nat with (S (N - S d)) by lia.
  rewrite seq_S, fmap_app, <- app_assoc. reflexivity.
Qed.

Section Series.
Variable inp : Inputs.
Variable lddcreate : Field -> Q -> Q -> Q -> Q -> Ldd.
Variable p : Parameters.
Variable N : nat.

Lemma simulation_after d :
  (d <= N)%nat ->
  simulation (after inp lddcreate p N d)
  = (difference inp lddcreate p N <$> seq 1 d) ++ replicate (N - d) 0.
Proof.
  induction d as [|d IH]; intros Hd.
  - simpl. rewrite Nat.sub_0_r. reflexivity.
  - rewrite after_S. cbn [simulation dynamic]. rewrite IH by lia.
    replace (S d - 1)%nat with d by lia.
    rewrite <- fill_step by lia. unfold difference.
    replace (S d - 1)%nat with d by lia. reflexivity.
Qed.

Lemma modelled_after d :
  (d <= N)%nat ->
  modelled (after inp lddcreate p N d)
  = ((fun t => Some (modelledDischarge inp lddcreate p N t)) <$> seq 1 d)
    ++ replicate (N - d) None.
Proof.
  induction d as [|d IH]; intros Hd.
  - simpl. rewrite Nat.sub_0_r. reflexivity.
  - rewrite after_S. cbn [modelled dynamic]. rewrite IH by lia.
    unfold sample. replace (S d - 1)%nat with d by lia.
    rewrite <- (fill_step
                  (fun t => Some (modelledDischarge inp lddcreate p N t)))
      by lia.
    unfold modelledDischarge.
    replace (S d - 1)%nat with d by lia. reflexivity.
Qed.

Lemma diffOut_after d :
  (d <= N)%nat ->
  diffOut (after inp lddcreate p N d)
  = ((fun t => Some (difference inp lddcreate p N t)) <$> seq 1 d)
    ++ replicate (N - d) None.
Proof.
  induction d as [|d IH]; intros Hd.
  - simpl. rewrite Nat.sub_0_r. reflexivity.
  - rewrite after_S. cbn [diffOut dynamic]. rewrite IH by lia.
    unfold sample. replace (S d - 1)%nat with d by lia.
    rewrite <- (fill_step (fun t => Some (difference inp lddcreate p N t)))
      by lia.
    unfold difference.
    replace (S d - 1)%nat with d by lia. reflexivity.
Qed.

Lemma simulation_run :
  simulation (run inp lddcreate p N).1
  = difference inp lddcreate p N <$> seq 1 N.
Proof.
  rewrite run_after, simulation_after, Nat.sub_diag by lia.
  apply app_nil_r.
Qed.

Lemma modelled_run :
  modelled (run inp lddcreate p N).1
  = (fun t => Some (modelledDischarge inp lddcreate p N t)) <$> seq 1 N.
Proof.
  rewrite run_after, modelled_after, Nat.sub_diag by lia.
  apply app_nil_r.
Qed.

Lemma diffOut_run :
  diffOut (run inp lddcreate p N).1
  = (fun t => Some (difference inp lddcreate p N t)) <$> seq 1 N.
Proof.
  rewrite run_after, diffOut_after, Nat.sub_diag by lia.
  apply app_nil_r.
Qed.

Lemma lookup_day {A} (f : nat -> A) d :
  (1 <= d <= N)%nat -> (f <$> seq 1 N) !! (d - 1)%nat = Some (f d).
Proof.
  intros Hd. rewrite list_lookup_fmap, lookup_seq_lt by lia.
  simpl. f_equal. f_equal. lia.
Qed.

Lemma objective_run :
  objective (run inp lddcreate p N).1
  = Qsum ((fun t => Qabs (difference inp lddcreate p N t)) <$> seq 1 N)
    / inject_Z (Z.of_nat N).
Proof.
  unfold objective, mean.
  rewrite simulation_run, <- list_fmap_compose, length_fmap, length_seq.
  reflexivity.
Qed.

End Series.

(** C8: the run leaves a series of length N; for every day d from 1 to N
    its entry d-1 holds the discharge modelled at the gauge on day d and
    the difference between the observed discharge of day d and that
    modelled discharge. *)
Theorem simulation_result inp lddcreate p N d :
  (1 <= d <= N)%nat ->
  let finished := (run inp lddcreate p N).1 in
  let q := runoffAtOutflowPoint inp (after inp lddcreate p N (d - 1)) d in
  difference inp lddcreate p N d = observed_tss inp d - q /\
  simulation finished !! (d - 1)%nat = Some (observed_tss inp d - q) /\
  modelled finished !! (d - 1)%nat = Some (Some q) /\
  diffOut finished !! (d - 1)%nat = Some (Some (observed_tss inp d - q)) /\
  SimulationResult finished !! (d - 1)%nat
    = Some (Some q, observed_tss inp d - q) /\
  length (SimulationResult finished) = N /\
  length (simulation finished) = N.
Proof.
  intros Hd finished q. unfold finished, SimulationResult.
  rewrite simulation_run, modelled_run, diffOut_run.
  split; [reflexivity|].
  pose proof (lookup_day N (difference inp lddcreate p N) d Hd) as Hdiff.
  pose proof (lookup_day N
                (fun t => Some (modelledDischarge inp lddcreate p N t)) d Hd)
    as Hmod.
  split; [exact Hdiff|]. split; [exact Hmod|].
  split; [apply (lookup_day N (fun t => Some _)), Hd|].
  split; [|split].
  - apply lookup_zip_Some. split; assumption.
  - rewrite length_zip_with_l_eq; rewrite !length_fmap, ?length_seq;
      reflexivity.
  - rewrite length_fmap, length_seq. reflexivity.
Qed.

Lemma simulation_result_witness :
  let inp := single_cell [10; 0; 0] [-1; 5; 5] [1; 1; 1] in
  let finished := (run inp all_pits (MyFirstModel_init 0.1 true) 3).1 in
  (1 <= 2 <= 3)%nat /\
  (exists q diff,
     SimulationResult finished !! 1%nat = Some (Some q, diff) /\
     q == 0.5 /\ diff == 0.5) /\
  length (SimulationResult finished) = 3%nat.
Proof.
  cbv zeta. split; [lia|].
  destruct (simulation_result (single_cell [10; 0; 0] [-1; 5; 5] [1; 1; 1])
              all_pits (MyFirstModel_init 0.1 true) 3 2)
    as (_ & _ & _ & _ & Hpair & Hlen & _); [lia|].
  split; [|exact Hlen].
  eexists _, _. split; [exact Hpair|]. split; reflexivity.
Defined.

(** ** The calibration sweep *)

Section Sweep.
Variable inp : Inputs.
Variable lddcreate : Field -> Q -> Q -> Q -> Q -> Ldd.
Variable cmr : bool.
Variable N : nat.

Lemma loop_body_eq st i :
  loop_body inp lddcreate cmr N st i
  = (st.1 ++ [recorded inp lddcreate (MyFirstModel_init i cmr) N],
     st.2 ++ (run inp lddcreate (MyFirstModel_init i cmr) N).2).
Proof.
  unfold loop_body, recorded, objective.
  rewrite <- simulation_run.
  pose proof (after_frame inp lddcreate (MyFirstModel_init i cmr) N N)
    as (Hp & _).
  rewrite <- run_after in Hp.
  destruct (run inp lddcreate (MyFirstModel_init i cmr) N) as [finished log].
  cbn [fst snd] in *. rewrite Hp. reflexivity.
Qed.

Lemma foldl_loop_body my_range st :
  foldl (loop_body inp lddcreate cmr N) st my_range
  = (st.1 ++ ((fun i => recorded inp lddcreate (MyFirstModel_init i cmr) N)
                <$> my_range),
     st.2 ++ (my_range ≫=
                fun i => (run inp lddcreate (MyFirstModel_init i cmr) N).2)).
Proof.
  revert st. induction my_range as [|i r IH]; intros st.
  - simpl. rewrite !app_nil_r. destruct st; reflexivity.
  - cbn [foldl]. rewrite IH, loop_body_eq. cbn [fst snd].
    rewrite fmap_cons, bind_cons, <- !app_assoc. reflexivity.
Qed.

Lemma calibration_rows my_range :
  (calibration inp lddcreate cmr N my_range).1
  = (fun i => recorded inp lddcreate (MyFirstModel_init i cmr) N)
      <$> my_range.
Proof. unfold calibration. rewrite foldl_loop_body. reflexivity. Qed.

Lemma calibration_calls my_range :
  (calibration inp lddcreate cmr N my_range).2
  = my_range ≫=
      fun i => (run inp lddcreate (MyFirstModel_init i cmr) N).2.
Proof. unfold calibration. rewrite foldl_loop_body. reflexivity. Qed.

Lemma no_Lddcreate_in_dynamic {A} (l : list A) :
  filter (fun e => is_Lddcreate e = true) (l ≫= fun _ => dynamic_calls) = [].
Proof.
  induction l as [|x l IH]; [reflexivity|].
  rewrite bind_cons, filter_app, IH. reflexivity.
Qed.

(** One run derives the drainage network once. *)
Lemma run_Lddcreate p :
  length (filter (fun e => is_Lddcreate e = true) (run inp lddcreate p N).2)
  = 1%nat.
Proof.
  unfold run. cbn [initial snd].
  rewrite filter_app, no_Lddcreate_in_dynamic. reflexivity.
Qed.

Lemma count_Lddcreate my_range :
  length (filter (fun e => is_Lddcreate e = true)
            (calibration inp lddcreate cmr N my_range).2)
  = length my_range.
Proof.
  rewrite calibration_calls.
  induction my_range as [|i r IH]; [reflexivity|].
  rewrite bind_cons, filter_app, length_app, IH, run_Lddcreate. reflexivity.
Qed.

End Sweep.

(** [rint] is a nearest integer, and [round x 4] is [x] up to half a unit
    of the fourth decimal. *)
Lemma rint_nearest x :
  - (1 # 2) <= inject_Z (rint x) - x <= 1 # 2.
Proof.
  unfold rint.
  pose proof (Qfloor_le x) as Hlo. pose proof (Qlt_floor x) as Hhi.
  rewrite inject_Z_plus in Hhi. change (inject_Z 1) with 1 in Hhi.
  destruct (Qcompare (x - inject_Z (Qfloor x)) (1 # 2)) eqn:E.
  - apply Qeq_alt in E.
    destruct (Z.even (Qfloor x)); rewrite ?inject_Z_plus;
      change (inject_Z 1) with 1; split; lra.
  - apply Qlt_alt in E. split; lra.
  - apply Qgt_alt in E. rewrite inject_Z_plus.
    change (inject_Z 1) with 1. split; lra.
Qed.

Lemma round_4_nearest x :
  - (1 # 20000) <= round x 4 - x <= 1 # 20000.
Proof.
  unfold round. change (inject_Z (10 ^ Z.of_nat 4)) with (10000 # 1).
  pose proof (rint_nearest (x * (10000 # 1))) as H.
  set (r := inject_Z (rint (x * (10000 # 1)))) in *.
  assert (E : r / (10000 # 1) == r * (1 # 10000)) by (field; discriminate).
  rewrite E. split; lra.
Qed.

(** C5, as stated, fails: the row of a candidate does not hold the melt
    rate the run used but its rounding to 4 decimals. *)
Lemma row_holds_rounded_melt_rate :
  let inp := single_cell [0] [0] [0] in
  let i := 0.00012 in
  exists r,
    (calibration inp all_pits true 1 [i]).1 = [r] /\
    meltRate (MyFirstModel_init i true) = i /\
    r.1.1 == 0.0001 /\ ~ r.1.1 == i.
Proof.
  cbv zeta. eexists. split; [reflexivity|]. split; [reflexivity|].
  split; [reflexivity|]. vm_compute. discriminate.
Qed.

(** C5 (amended): the sweep takes the candidates in order and adds one row
    per candidate, none left out.  The row of a candidate comes from a run
    of its own over the full horizon, with the candidate as the free
    parameter and the fixed default for the other one; its objective is the
    mean of the absolute daily differences of that run over the N days; and
    the row holds the melt rate rounded to 4 decimals, the lapse rate
    rounded to 4 decimals and the objective rounded to an integer. *)
Theorem calibration_sweep inp lddcreate cmr N my_range :
  let result := (calibration inp lddcreate cmr N my_range).1 in
  length result = length my_range /\
  forall k i, my_range !! k = Some i ->
    let p := MyFirstModel_init i cmr in
    let finished := (run inp lddcreate p N).1 in
    p = (if cmr
         then {| meltRate := i; temperatureLapseRate := 0.005 |}
         else {| meltRate := 0.01; temperatureLapseRate := i |}) /\
    finished = foldl (dynamic inp) (initial inp lddcreate p N).1 (seq 1 N) /\
    objective finished
      = Qsum ((fun t => Qabs (difference inp lddcreate p N t)) <$> seq 1 N)
        / inject_Z (Z.of_nat N) /\
    result !! k
      = Some (round (meltRate p) 4, round (temperatureLapseRate p) 4,
              inject_Z (rint (objective finished))).
Proof.
  intros result. subst result. rewrite calibration_rows. split.
  - apply length_fmap.
  - intros k i Hk p finished.
    split; [subst p; destruct cmr; reflexivity|].
    split; [reflexivity|].
    split; [apply objective_run|].
    rewrite list_lookup_fmap, Hk. cbn [fmap option_fmap option_map].
    unfold recorded, finished, objective. rewrite simulation_run.
    reflexivity.
Qed.

Lemma calibration_sweep_witness :
  let inp := single_cell [10; 0; 0] [-1; 5; 5] [1; 1; 1] in
  let result := (calibration inp all_pits true 3 [0.1; 0.2]).1 in
  length result = 2%nat /\
  result !! 1%nat
    = Some (round 0.2 4, round 0.005 4,
            inject_Z (rint (objective
              (run inp all_pits (MyFirstModel_init 0.2 true) 3).1))).
Proof.
  cbv zeta.
  destruct (calibration_sweep (single_cell [10; 0; 0] [-1; 5; 5] [1; 1; 1])
              all_pits true 3 [0.1; 0.2]) as [Hlen Hrow].
  split; [exact Hlen|].
  destruct (Hrow 1%nat 0.2 eq_refl) as (_ & _ & _ & H). exact H.
Defined.

(** C7, as stated, fails: a sweep over two candidates derives the drainage
    network twice, once in the [initial] of each run. *)
Lemma drainage_network_derived_twice :
  let inp := single_cell [0] [0] [0] in
  length (filter (fun e => is_Lddcreate e = true)
            (calibration inp all_pits true 1 [0.001; 0.002]).2)
  = 2%nat.
Proof. reflexivity. Qed.

(** C7 (amended): the drainage network is derived from the elevation grid
    once in every run, so once per candidate, always by the same call on
    the same grid, and no time step changes it; the snow store and the
    result series are created fresh by every run; and the rows of a sweep
    do not depend on the candidates that came before. *)
Theorem drainage_network_per_run inp lddcreate cmr N my_range :
  (forall i,
     length (filter (fun e => is_Lddcreate e = true)
               (run inp lddcreate (MyFirstModel_init i cmr) N).2)
     = 1%nat) /\
  length (filter (fun e => is_Lddcreate e = true)
            (calibration inp lddcreate cmr N my_range).2)
  = length my_range /\
  (forall i d,
     ldd (after inp lddcreate (MyFirstModel_init i cmr) N d)
     = lddcreate (dem_map inp) 1e31 1e31 1e31 1e31) /\
  (forall i,
     let fresh := (initial inp lddcreate (MyFirstModel_init i cmr) N).1 in
     (forall c, snow fresh c = 0.0) /\
     simulation fresh = replicate N 0 /\
     modelled fresh = replicate N None /\
     diffOut fresh = replicate N None) /\
  (forall before,
     (calibration inp lddcreate cmr N (before ++ my_range)).1
     = (calibration inp lddcreate cmr N before).1
       ++ (calibration inp lddcreate cmr N my_range).1).
Proof.
  split; [intros i; apply run_Lddcreate|].
  split; [apply count_Lddcreate|]. split; [|split].
  - intros i d.
    destruct (after_frame inp lddcreate (MyFirstModel_init i cmr) N d)
      as (_ & _ & H & _). exact H.
  - intros i. repeat split.
  - intros before. rewrite !calibration_rows. apply fmap_app.
Qed.

(** C10: every row of the sweep holds the melt rate and the lapse rate of
    its run rounded to 4 decimals (within half a unit of the fourth
    decimal) and the objective rounded to the nearest integer; for some
    candidates the recorded value of the free parameter is not the value
    the run used. *)
Theorem recorded_values_rounded inp lddcreate N :
  (forall cmr my_range r,
     r ∈ (calibration inp lddcreate cmr N my_range).1 ->
     exists i, i ∈ my_range /\
       let p := MyFirstModel_init i cmr in
       let diff := objective (run inp lddcreate p N).1 in
       r = (round (meltRate p) 4, round (temperatureLapseRate p) 4,
            inject_Z (rint diff)) /\
       - (1 # 20000) <= r.1.1 - meltRate p <= 1 # 20000 /\
       - (1 # 20000) <= r.1.2 - temperatureLapseRate p <= 1 # 20000 /\
       - (1 # 2) <= r.2 - diff <= 1 # 2) /\
  (exists i r,
     (calibration inp lddcreate true N [i]).1 = [r] /\
     meltRate (parameters (run inp lddcreate (MyFirstModel_init i true) N).1)
       = i /\
     ~ r.1.1 == i).
Proof.
  split.
  - intros cmr my_range r Hr. rewrite calibration_rows in Hr.
    apply list_elem_of_fmap in Hr as (i & -> & Hi).
    exists i. split; [exact Hi|]. cbv zeta.
    unfold recorded, objective. rewrite simulation_run. cbn [fst snd].
    split; [reflexivity|].
    split; [apply round_4_nearest|].
    split; [apply round_4_nearest|]. apply rint_nearest.
  - exists 0.00012. eexists. split; [rewrite calibration_rows; reflexivity|].
    split.
    + rewrite run_after.
      destruct (after_frame inp lddcreate
                  (MyFirstModel_init 0.00012 true) N N) as (-> & _).
      reflexivity.
    + cbn [recorded fst snd]. vm_compute. discriminate.
Qed.

Lemma recorded_values_rounded_witness :
  let inp := single_cell [10; 0; 0] [-1; 5; 5] [1; 1; 1] in
  exists i, i ∈ [0.1; 0.2] /\
    (round 0.2 4, round 0.005 4, inject_Z 0)
    = (round i 4, round 0.005 4,
       inject_Z (rint (objective
         (run inp all_pits (MyFirstModel_init i true) 3).1))).
Proof.
  cbv zeta.
  destruct (recorded_values_rounded
              (single_cell [10; 0; 0] [-1; 5; 5] [1; 1; 1]) all_pits 3)
    as [Hrows _].
  destruct (Hrows true [0.1; 0.2] (round 0.2 4, round 0.005 4, inject_Z 0))
    as (i & Hi & Hr & _).
  - rewrite calibration_rows. apply list_elem_of_fmap.
    exists 0.2. split; [vm_compute; reflexivity|].
    apply list_elem_of_further, list_elem_of_here.
  - exists i. split; [exact Hi|exact Hr].
Defined.

(** ** The ranges of the script in binary64 *)

(** In binary64 the melt-rate range of the script has 19 candidates; the
    ninth is not 0.009 but the next double above it, and its row holds
    0.009.  Six of the 19 candidates are recorded with another value than
    the run used. *)
Lemma melt_rate_range_binary64 :
  let range := Binary64.my_range true in
  length range = 19%nat /\
  (exists x, range !! 8%nat = Some x /\
     PrimFloat.ltb 0.009 x = true /\
     PrimFloat.eqb (Binary64.round4 x) 0.009 = true) /\
  Binary64.recorded_differently range = [8; 9; 12; 13; 17; 18]%nat.
Proof.
  cbv zeta. split; [vm_compute; reflexivity|]. split.
  - eexists. split; [vm_compute; reflexivity|].
    split; vm_compute; reflexivity.
  - vm_compute. reflexivity.
Qed.

(** ** The script as it is run *)

(** The melt-rate range has 19 candidates, so the script adds 19 rows; in
    exact arithmetic every candidate of the range has at most 3 decimals
    and is recorded as it is. *)
Lemma script_rows inp lddcreate :
  length (script inp lddcreate).1 = 19%nat /\
  Forall (fun i => round i 4 == i) (my_range calibrate_melt_rate).
Proof.
  split.
  - unfold script. rewrite calibration_rows, length_fmap. reflexivity.
  - vm_compute. repeat constructor.
Qed.

(** * Further properties of the model *)

(** ** The snow store and the runoff of a cell *)

Lemma Qsum_nonneg {A} (f : A -> Q) (l : list A) :
  (forall x, x ∈ l -> 0 <= f x) -> 0 <= Qsum (f <$> l).
Proof.
  induction l as [|x l IH]; intros H; [simpl; lra|].
  rewrite fmap_cons, Qsum_cons.
  pose proof (H x (list_elem_of_here x l)).
  assert (0 <= Qsum (f <$> l))
    by (apply IH; intros y Hy; apply H, list_elem_of_further, Hy).
  lra.
Qed.

Lemma Qsum_ext {A} (f g : A -> Q) (l : list A) :
  (forall x, x ∈ l -> f x == g x) -> Qsum (f <$> l) == Qsum (g <$> l).
Proof.
  induction l as [|x l IH]; intros H; [reflexivity|].
  rewrite !fmap_cons, !Qsum_cons.
  rewrite (H x (list_elem_of_here x l)), IH; [reflexivity|].
  intros y Hy. apply H, list_elem_of_further, Hy.
Qed.

(** A cell never releases more water than it received: over every horizon
    the runoff generated is at most the precipitation, whatever the inputs
    and parameters are. *)
Theorem runoff_never_exceeds_precipitation inp lddcreate p N c d :
  cumulativeRunoff inp lddcreate p N c d <= cumulativePrecipitation inp d.
Proof.
  pose proof (balance_after inp lddcreate p N c d).
  pose proof (snow_after_nonneg inp lddcreate p N d c). lra.
Qed.

(** With a melt rate that is not negative, a day whose precipitation is
    not negative melts and releases no negative amount. *)
Theorem runoff_nonnegative inp lddcreate p N d t c :
  0 <= meltRate p -> 0 <= precip_tss inp t ->
  let self := after inp lddcreate p N d in
  0 <= actualMelt inp self t c /\ 0 <= runoffGenerated inp self t c.
Proof.
  intros Hm HP self.
  pose proof (snow_after_nonneg inp lddcreate p N d c) as Hs. fold self in Hs.
  destruct (after_frame inp lddcreate p N d) as (Hp & _). fold self in Hp.
  assert (Ham : 0 <= actualMelt inp self t c).
  { destruct (Qlt_le_dec (temperature inp self t c) 0) as [HT|HT].
    - destruct (day_frozen inp self t c HT) as (Hsf & _ & Hpm).
      unfold actualMelt, snowAccumulated, precipitation in *.
      qmin_cases; lra.
    - destruct (day_melting inp self t c HT) as (Hsf & _ & Hpm).
      rewrite Hp in Hpm.
      assert (0 <= temperature inp self t c * meltRate p) by nra.
      unfold actualMelt, snowAccumulated in *. qmin_cases; lra. }
  split; [exact Ham|].
  unfold runoffGenerated, rainFall, pcrnot, precipitation.
  destruct (freezing inp self t c); simpl; lra.
Qed.

Lemma runoff_nonnegative_witness :
  let inp := single_cell [10; 0; 0] [-1; 5; 5] [0; 0; 0] in
  let p := MyFirstModel_init 0.1 true in
  0 <= meltRate p /\ 0 <= precip_tss inp 2 /\
  0 <= runoffGenerated inp (after inp all_pits p 3 1) 2 0%nat.
Proof.
  cbv zeta. split; [vm_compute; discriminate|].
  split; [vm_compute; discriminate|].
  apply (runoff_nonnegative (single_cell [10; 0; 0] [-1; 5; 5] [0; 0; 0])
           all_pits (MyFirstModel_init 0.1 true) 3 1 2 0%nat);
    vm_compute; discriminate.
Defined.

(** With non-negative precipitation and melt rate the store of a cell is
    never more than the precipitation received so far. *)
Theorem snow_at_most_precipitation inp lddcreate p N c d :
  0 <= meltRate p -> (forall t, 0 <= precip_tss inp t) ->
  snow (after inp lddcreate p N d) c <= cumulativePrecipitation inp d.
Proof.
  intros Hm HP.
  pose proof (balance_after inp lddcreate p N c d) as Hb.
  assert (0 <= cumulativeRunoff inp lddcreate p N c d); [|lra].
  unfold cumulativeRunoff. apply Qsum_nonneg. intros t _.
  apply (runoff_nonnegative inp lddcreate p N (t - 1) t c Hm (HP t)).
Qed.

Lemma snow_at_most_precipitation_witness :
  let inp := single_cell [10; 0; 0] [-1; 5; 5] [0; 0; 0] in
  let p := MyFirstModel_init 0.1 true in
  0 <= meltRate p /\
  snow (after inp all_pits p 3 3) 0%nat <= cumulativePrecipitation inp 3.
Proof.
  cbv zeta. split; [vm_compute; discriminate|].
  apply (snow_at_most_precipitation
           (single_cell [10; 0; 0] [-1; 5; 5] [0; 0; 0]) all_pits
           (MyFirstModel_init 0.1 true) 3 0%nat 3).
  - vm_compute; discriminate.
  - intros [|[|[|[|t]]]]; vm_compute; discriminate.
Defined.

Lemma Qsum_zero {A} (f : A -> Q) (l : list A) :
  (forall x, x ∈ l -> f x == 0) -> Qsum (f <$> l) == 0.
Proof.
  induction l as [|x l IH]; intros H; [reflexivity|].
  rewrite fmap_cons, Qsum_cons, (H x (list_elem_of_here x l)), IH; [lra|].
  intros y Hy. apply H, list_elem_of_further, Hy.
Qed.

(** While it freezes at a cell and the precipitation is not negative, the
    cell releases nothing and stores all the precipitation. *)
Theorem frozen_days_accumulate inp lddcreate p N c d :
  (forall t, (1 <= t <= d)%nat ->
     temp_tss inp t
     - (dem_map inp c - elevationMeteoStation) * temperatureLapseRate p < 0) ->
  (forall t, (1 <= t <= d)%nat -> 0 <= precip_tss inp t) ->
  snow (after inp lddcreate p N d) c == cumulativePrecipitation inp d /\
  forall t, (1 <= t <= d)%nat ->
    runoffGenerated inp (after inp lddcreate p N (t - 1)) t c == 0.
Proof.
  intros HT HP.
  assert (Hr : forall t, (1 <= t <= d)%nat ->
            runoffGenerated inp (after inp lddcreate p N (t - 1)) t c == 0).
  { intros t Ht. specialize (HT t Ht). specialize (HP t Ht).
    rewrite <- (temperature_after inp lddcreate p N (t - 1)) in HT.
    destruct (day_frozen inp _ t c HT) as (Hsf & Hrf & Hpm).
    pose proof (snow_after_nonneg inp lddcreate p N (t - 1) c).
    unfold runoffGenerated, actualMelt, snowAccumulated, precipitation in *.
    qmin_cases; lra. }
  split; [|exact Hr].
  pose proof (balance_after inp lddcreate p N c d) as Hb.
  assert (cumulativeRunoff inp lddcreate p N c d == 0); [|lra].
  unfold cumulativeRunoff. apply Qsum_zero.
  intros t Ht%elem_of_seq. apply Hr. lia.
Qed.

Lemma frozen_days_accumulate_witness :
  let inp := single_cell [10; 2] [-1; -3] [0; 0] in
  snow (after inp all_pits (MyFirstModel_init 0.1 true) 2 2) 0%nat
  == cumulativePrecipitation inp 2.
Proof.
  cbv zeta.
  apply (frozen_days_accumulate (single_cell [10; 2] [-1; -3] [0; 0])
           all_pits (MyFirstModel_init 0.1 true) 2 0%nat 2).
  - intros [|[|[|t]]] Ht; try lia; reflexivity.
  - intros [|[|[|t]]] Ht; try lia; vm_compute; discriminate.
Defined.

(** While it does not freeze at a cell whose store is empty, with a melt
    rate that is not negative, the store stays empty and every day's
    precipitation is that day's runoff. *)
Theorem thaw_days_pass_through inp lddcreate p N c d :
  0 <= meltRate p ->
  (forall t, (1 <= t <= d)%nat ->
     0 <= temp_tss inp t
          - (dem_map inp c - elevationMeteoStation) * temperatureLapseRate p) ->
  snow (after inp lddcreate p N d) c == 0 /\
  forall t, (1 <= t <= d)%nat ->
    runoffGenerated inp (after inp lddcreate p N (t - 1)) t c
    == precip_tss inp t.
Proof.
  intros Hm HT.
  assert (Hs : forall k, (k <= d)%nat ->
            snow (after inp lddcreate p N k) c == 0).
  { induction k as [|k IH]; intros Hk; [simpl; lra|].
    specialize (IH ltac:(lia)). specialize (HT (S k) ltac:(lia)).
    rewrite <- (temperature_after inp lddcreate p N k) in HT.
    destruct (day_melting inp _ (S k) c HT) as (Hsf & Hrf & Hpm).
    destruct (after_frame inp lddcreate p N k) as (Hp & _).
    rewrite Hp in Hpm.
    assert (0 <= temperature inp (after inp lddcreate p N k) (S k) c
                 * meltRate p) by nra.
    rewrite after_S, snow_dynamic.
    unfold snowRemaining, actualMelt, snowAccumulated in *.
    qmin_cases; lra. }
  split; [apply Hs; lia|].
  intros t Ht. specialize (Hs (t - 1)%nat ltac:(lia)).
  specialize (HT t Ht).
  rewrite <- (temperature_after inp lddcreate p N (t - 1)) in HT.
  destruct (day_melting inp _ t c HT) as (Hsf & Hrf & Hpm).
  destruct (after_frame inp lddcreate p N (t - 1)) as (Hp & _).
  rewrite Hp in Hpm.
  assert (0 <= temperature inp (after inp lddcreate p N (t - 1)) t c
               * meltRate p) by nra.
  unfold runoffGenerated, actualMelt, snowAccumulated, precipitation in *.
  qmin_cases; lra.
Qed.

Lemma thaw_days_pass_through_witness :
  let inp := single_cell [10; 2] [1; 3] [0; 0] in
  let p := MyFirstModel_init 0.1 true in
  0 <= meltRate p /\
  snow (after inp all_pits p 2 2) 0%nat == 0 /\
  runoffGenerated inp (after inp all_pits p 2 1) 2 0%nat == precip_tss inp 2.
Proof.
  cbv zeta. split; [vm_compute; discriminate|].
  destruct (thaw_days_pass_through (single_cell [10; 2] [1; 3] [0; 0])
              all_pits (MyFirstModel_init 0.1 true) 2 0%nat 2) as [Hs Hr].
  - vm_compute; discriminate.
  - intros [|[|[|t]]] Ht; try lia; vm_compute; discriminate.
  - split; [exact Hs|]. apply (Hr 2%nat). lia.
Defined.

(** The store of a cell depends on the elevation of that cell, the
    precipitation and temperature tables and the parameters, and on
    nothing else: not on the other cells, the drainage network, the cell
    area, the gauge, the observed discharge or the number of time steps. *)
Theorem snow_depends_on_elevation_only
    inp inp' lddcreate lddcreate' p N N' d c c' :
  dem_map inp c = dem_map inp' c' ->
  (forall t, precip_tss inp t = precip_tss inp' t) ->
  (forall t, temp_tss inp t = temp_tss inp' t) ->
  snow (after inp lddcreate p N d) c = snow (after inp' lddcreate' p N' d) c'.
Proof.
  intros Hdem HP HT. induction d as [|d IH]; [reflexivity|].
  rewrite !after_S, !snow_dynamic.
  unfold snowRemaining, actualMelt, snowAccumulated, potentialMelt, snowFall,
    freezing, precipitation.
  rewrite !temperature_after, IH, Hdem, HP, HT.
  destruct (after_frame inp lddcreate p N d) as (-> & _).
  destruct (after_frame inp' lddcreate' p N' d) as (-> & _).
  reflexivity.
Qed.

Lemma snow_depends_on_elevation_only_witness :
  snow (after (single_cell [10; 0; 0] [-1; 5; 5] [0; 0; 0]) all_pits
          (MyFirstModel_init 0.1 true) 3 3) 0%nat
  = snow (after (two_cells [10; 0; 0] [-1; 5; 5] [7; 7; 7]) to_chain
            (MyFirstModel_init 0.1 true) 5 3) 1%nat.
Proof.
  apply snow_depends_on_elevation_only; reflexivity.
Defined.

(** For a cell at or above the meteo station, with non-negative
    precipitation and melt rate, a larger lapse rate never leaves less
    snow. *)
Theorem lapse_rate_monotone inp lddcreate m l1 l2 N d c :
  0 <= m -> (forall t, 0 <= precip_tss inp t) ->
  elevationMeteoStation <= dem_map inp c ->
  l1 <= l2 ->
  snow (after inp lddcreate
          {| meltRate := m; temperatureLapseRate := l1 |} N d) c
  <= snow (after inp lddcreate
             {| meltRate := m; temperatureLapseRate := l2 |} N d) c.
Proof.
  intros Hm HP Hdem Hl. induction d as [|d IH]; [simpl; lra|].
  pose proof (snow_after_nonneg inp lddcreate
                {| meltRate := m; temperatureLapseRate := l1 |} N d c) as Hs1.
  specialize (HP (S d)).
  rewrite !after_S, !snow_dynamic.
  unfold snowRemaining, actualMelt, snowAccumulated, potentialMelt, snowFall,
    freezing, pcrnot, precipitation.
  rewrite !temperature_after.
  destruct (after_frame inp lddcreate
              {| meltRate := m; temperatureLapseRate := l1 |} N d)
    as (-> & _).
  destruct (after_frame inp lddcreate
              {| meltRate := m; temperatureLapseRate := l2 |} N d)
    as (-> & _).
  cbn [meltRate temperatureLapseRate].
  set (h := dem_map inp c - elevationMeteoStation).
  assert (Hh : h * l1 <= h * l2) by (unfold h; nra).
  set (T1 := temp_tss inp (S d) - h * l1).
  set (T2 := temp_tss inp (S d) - h * l2).
  assert (HT : T2 <= T1) by (unfold T1, T2; lra).
  destruct (Qltb T1 0.0) eqn:E1; destruct (Qltb T2 0.0) eqn:E2;
    cbn [negb ifthenelse].
  - qmin_cases; lra.
  - apply Qltb_lt in E1. apply Qltb_ge in E2. lra.
  - apply Qltb_ge in E1. assert (0 <= T1 * m) by nra. qmin_cases; lra.
  - apply Qltb_ge in E1. apply Qltb_ge in E2.
    assert (T2 * m <= T1 * m) by nra. qmin_cases; lra.
Qed.

Lemma lapse_rate_monotone_witness :
  let inp := hill_cell [10; 0; 0] [-1; 5; 5] [0; 0; 0] in
  0.004 <= 0.005 /\
  snow (after inp all_pits
          {| meltRate := 0.1; temperatureLapseRate := 0.004 |} 3 3) 0%nat
  <= snow (after inp all_pits
             {| meltRate := 0.1; temperatureLapseRate := 0.005 |} 3 3) 0%nat.
Proof.
  cbv zeta. split; [vm_compute; discriminate|].
  apply (lapse_rate_monotone (hill_cell [10; 0; 0] [-1; 5; 5] [0; 0; 0])
           all_pits 0.1 0.004 0.005 3 3 0%nat).
  - vm_compute; discriminate.
  - intros [|[|[|[|t]]]]; vm_compute; discriminate.
  - vm_compute; discriminate.
  - vm_compute; discriminate.
Defined.

(** ** Routing *)

Lemma filter_all {A} (P : A -> Prop) `{forall x, Decision (P x)} (l : list A) :
  (forall x, x ∈ l -> P x) -> filter P l = l.
Proof.
  induction l as [|x l IH]; intros HP; [reflexivity|].
  rewrite filter_cons_True by (apply HP, list_elem_of_here).
  f_equal. apply IH. intros y Hy. apply HP, list_elem_of_further, Hy.
Qed.

Lemma Qsum_scale {A} (f : A -> Q) (k : Q) (l : list A) :
  Qsum ((fun x => f x * k) <$> l) == k * Qsum (f <$> l).
Proof.
  induction l as [|x l IH]; [simpl; lra|].
  rewrite !fmap_cons, !Qsum_cons, IH. lra.
Qed.

Lemma Qsum_plus {A} (f g : A -> Q) (l : list A) :
  Qsum ((fun x => f x + g x) <$> l) == Qsum (f <$> l) + Qsum (g <$> l).
Proof.
  induction l as [|x l IH]; [simpl; lra|].
  rewrite !fmap_cons, !Qsum_cons, IH. lra.
Qed.

Lemma Qsum_const {A} (k : Q) (l : list A) :
  Qsum ((fun _ => k) <$> l) == inject_Z (Z.of_nat (length l)) * k.
Proof.
  induction l as [|x l IH];
    [change (0 == 0 * k); lra|].
  rewrite fmap_cons, Qsum_cons, IH. cbn [length].
  rewrite Nat2Z.inj_succ, <- Z.add_1_r, inject_Z_plus.
  change (inject_Z 1) with 1. lra.
Qed.

Lemma Qsum_swap {A B} (f : A -> B -> Q) (la : list A) (lb : list B) :
  Qsum ((fun a => Qsum (f a <$> lb)) <$> la)
  == Qsum ((fun b => Qsum ((fun a => f a b) <$> la)) <$> lb).
Proof.
  induction la as [|a la IH].
  - simpl. symmetry. apply Qsum_zero. reflexivity.
  - rewrite fmap_cons, Qsum_cons, IH, <- Qsum_plus.
    apply Qsum_ext. intros b _. rewrite fmap_cons, Qsum_cons. reflexivity.
Qed.

(** Helper: the catchment of a cell that every cell of the grid reaches is
    the whole grid. *)
Lemma outlet_collects_all n ldd material g :
  (forall u, (u < n)%nat -> reaches ldd n u g = true) ->
  accuflux n ldd material g = Qsum (material <$> seq 0 n).
Proof.
  intros H. unfold accuflux, catchment. rewrite filter_all; [reflexivity|].
  intros u Hu%elem_of_seq. apply H. lia.
Qed.

Section Pits.
Variable n : nat.
Variable ldd : Ldd.
Hypothesis sound : lddsound n ldd = true.

Lemma drains_pit fuel u :
  drains n ldd fuel u = true -> exists q, flows ldd u q /\ ldd q = None.
Proof.
  revert u. induction fuel as [|f IH]; intros u Hd; [discriminate|].
  simpl in Hd. destruct (ldd u) as [v|] eqn:E.
  - apply andb_true_iff in Hd as [_ Hd].
    destruct (IH v Hd) as (q & Hq & Eq).
    exists q. split; [eapply flows_down; eauto|exact Eq].
  - exists u. split; [constructor|exact E].
Qed.

Lemma flows_from_pit q c : ldd q = None -> flows ldd q c -> q = c.
Proof.
  intros E H. destruct H as [|q v c E' _]; [reflexivity|congruence].
Qed.

Lemma elem_of_pits q : q ∈ pits n ldd <-> (q < n)%nat /\ ldd q = None.
Proof.
  unfold pits. rewrite list_elem_of_filter, elem_of_seq.
  split; intros [? ?]; split; auto; lia.
Qed.

(** Every cell lies in the catchment of one pit. *)
Lemma pits_partition : pits n ldd ≫= catchment n ldd ≡ₚ seq 0 n.
Proof.
  apply NoDup_Permutation.
  - apply NoDup_bind.
    + intros q1 q2 u [_ E1]%elem_of_pits [_ E2]%elem_of_pits
        [_ H1]%(elem_of_catchment n ldd sound)
        [_ H2]%(elem_of_catchment n ldd sound).
      destruct (flows_linear ldd u q1 q2 H1 H2) as [H|H].
      * apply (flows_from_pit _ _ E1 H).
      * symmetry. apply (flows_from_pit _ _ E2 H).
    + intros q _. apply NoDup_filter, NoDup_seq.
    + apply NoDup_filter, NoDup_seq.
  - apply NoDup_seq.
  - intros u. rewrite list_elem_of_bind, elem_of_seq. split.
    + intros (q & [Hu _]%(elem_of_catchment n ldd sound) & _). lia.
    + intros [_ Hu]. cbn in Hu.
      destruct (drains_pit n u (sound_drains n ldd sound u Hu))
        as (q & Hq & Eq).
      exists q. rewrite (elem_of_catchment n ldd sound), elem_of_pits.
      pose proof (flows_on_grid n ldd sound u q Hu Hq). auto.
Qed.

Lemma accuflux_nonneg material c :
  (forall u, 0 <= material u) -> 0 <= accuflux n ldd material c.
Proof.
  intros H. unfold accuflux. apply Qsum_nonneg. intros u _. apply H.
Qed.

Lemma Qsum_elem (l : list Q) x :
  Forall (fun y => 0 <= y) l -> x ∈ l -> x <= Qsum l.
Proof.
  induction 1 as [|y l Hy Hl IH]; intros Hx; [inversion Hx|].
  rewrite Qsum_cons.
  assert (0 <= Qsum l).
  { clear -Hl. induction Hl as [|z l Hz _ IH]; [simpl; lra|].
    rewrite Qsum_cons. lra. }
  apply elem_of_cons in Hx as [->|Hx]; [lra|].
  specialize (IH Hx). lra.
Qed.

End Pits.

(** On a sound drainage network routing neither loses nor adds material:
    the accumulated flux of the pits adds up to the material of the whole
    grid. *)
Theorem routing_conserves_material n ldd material :
  lddsound n ldd = true ->
  Qsum (accuflux n ldd material <$> pits n ldd)
  == Qsum (material <$> seq 0 n).
Proof.
  intros sound. unfold accuflux. rewrite <- Qsum_bind.
  apply Qsum_Permutation, fmap_Permutation, pits_partition, sound.
Qed.

Lemma routing_conserves_material_witness :
  lddsound 2 chain = true /\
  Qsum (accuflux 2 chain (fun _ => 1) <$> pits 2 chain)
  == Qsum ((fun _ => 1) <$> seq 0 2).
Proof.
  split; [reflexivity|].
  apply (routing_conserves_material 2 chain (fun _ => 1)). reflexivity.
Defined.

(** With material that is not negative, the accumulated flux does not
    decrease along the drainage direction. *)
Theorem flux_grows_downstream n ldd material u c :
  lddsound n ldd = true -> (forall x, 0 <= material x) ->
  (u < n)%nat -> ldd u = Some c ->
  accuflux n ldd material u <= accuflux n ldd material c.
Proof.
  intros sound Hm Hu E.
  assert (Hc : (c < n)%nat).
  { apply (flows_on_grid n ldd sound u c Hu).
    eapply flows_down; [exact E|constructor]. }
  rewrite (accuflux_upstream n ldd sound material c Hc).
  assert (accuflux n ldd material u
          <= Qsum (accuflux n ldd material <$> upstream n ldd c)).
  { apply Qsum_elem.
    - apply Forall_fmap, Forall_forall. intros v _.
      apply accuflux_nonneg, Hm.
    - apply list_elem_of_fmap. exists u. split; [reflexivity|].
      apply elem_of_upstream. auto. }
  specialize (Hm c). lra.
Qed.

Lemma flux_grows_downstream_witness :
  lddsound 2 chain = true /\
  accuflux 2 chain (fun _ => 1) 0%nat <= accuflux 2 chain (fun _ => 1) 1%nat.
Proof.
  split; [reflexivity|].
  apply (flux_grows_downstream 2 chain (fun _ => 1) 0%nat 1%nat);
    try reflexivity; try lia.
  intros _. vm_compute; discriminate.
Defined.

(** When every cell drains through the gauge cell, the water balance
    closes at the gauge: over every horizon the discharge modelled there
    plus the water still stored as snow, taken over the cell area, is the
    precipitation the grid received. *)
Theorem catchment_water_balance inp lddcreate p N g d :
  (forall u, (u < ncells inp)%nat ->
     reaches (lddcreate (dem_map inp) 1e31 1e31 1e31 1e31) (ncells inp) u g
     = true) ->
  Qsum ((fun t => discharge inp (after inp lddcreate p N (t - 1)) t g)
          <$> seq 1 d)
  + cellarea inp * totalSnow inp (after inp lddcreate p N d)
  == cellarea inp
     * (inject_Z (Z.of_nat (ncells inp)) * cumulativePrecipitation inp d).
Proof.
  intros Hg.
  set (cells := seq 0 (ncells inp)).
  set (r := fun t c =>
              runoffGenerated inp (after inp lddcreate p N (t - 1)) t c).
  assert (H1 : Qsum ((fun t =>
                        discharge inp (after inp lddcreate p N (t - 1)) t g)
                       <$> seq 1 d)
               == cellarea inp
                  * Qsum ((fun c => cumulativeRunoff inp lddcreate p N c d)
                            <$> cells)).
  { rewrite (Qsum_ext _ (fun t => Qsum (r t <$> cells) * cellarea inp)).
    - rewrite Qsum_scale, (Qsum_swap r). reflexivity.
    - intros t _. unfold discharge.
      destruct (after_frame inp lddcreate p N (t - 1)) as (_ & _ & -> & _).
      rewrite (outlet_collects_all _ _ _ g Hg), Qsum_scale.
      apply Qmult_comm. }
  assert (H2 : Qsum ((fun c => cumulativeRunoff inp lddcreate p N c d)
                       <$> cells)
               + totalSnow inp (after inp lddcreate p N d)
               == inject_Z (Z.of_nat (ncells inp))
                  * cumulativePrecipitation inp d).
  { unfold totalSnow. fold cells. rewrite <- Qsum_plus.
    rewrite (Qsum_ext _ (fun _ => cumulativePrecipitation inp d)).
    - rewrite Qsum_const. unfold cells. rewrite length_seq. reflexivity.
    - intros c _. symmetry. apply balance_after. }
  rewrite H1. rewrite <- H2. ring.
Qed.

Lemma catchment_water_balance_witness :
  let inp := two_cells [10; 0; 3] [-1; 5; 5] [0; 0; 0] in
  let p := MyFirstModel_init 0.1 true in
  Qsum ((fun t => discharge inp (after inp to_chain p 3 (t - 1)) t 1%nat)
          <$> seq 1 3)
  + cellarea inp * totalSnow inp (after inp to_chain p 3 3)
  == cellarea inp
     * (inject_Z (Z.of_nat (ncells inp)) * cumulativePrecipitation inp 3).
Proof.
  cbv zeta.
  apply (catchment_water_balance (two_cells [10; 0; 3] [-1; 5; 5] [0; 0; 0])
           to_chain (MyFirstModel_init 0.1 true) 3 1%nat 3).
  intros [|[|u]] Hu; [reflexivity|reflexivity|simpl in Hu; lia].
Defined.

(** ** Rounding *)

Ltac qcompare_hyps :=
  repeat match goal with
  | H : Qcompare _ _ = Eq |- _ => apply Qeq_alt in H
  | H : Qcompare _ _ = Lt |- _ => apply Qlt_alt in H
  | H : Qcompare _ _ = Gt |- _ => apply Qgt_alt in H
  end.

Lemma rint_comp x y : x == y -> rint x = rint y.
Proof.
  intros E. unfold rint. rewrite (Qfloor_comp x y E).
  rewrite (Qcompare_comp (x - inject_Z (Qfloor y)) (y - inject_Z (Qfloor y))
             ltac:(lra) (1 # 2) (1 # 2) ltac:(reflexivity)).
  reflexivity.
Qed.

Lemma rint_Z z : rint (inject_Z z) = z.
Proof.
  unfold rint. rewrite Qfloor_Z.
  rewrite (Qcompare_comp (inject_Z z - inject_Z z) 0 ltac:(ring)
             (1 # 2) (1 # 2) ltac:(reflexivity)).
  reflexivity.
Qed.

Lemma rint_floor x : (Qfloor x <= rint x <= Qfloor x + 1)%Z.
Proof.
  unfold rint.
  destruct (Qcompare (x - inject_Z (Qfloor x)) (1 # 2));
    [destruct (Z.even (Qfloor x))| |]; lia.
Qed.

Lemma rint_monotone x y : x <= y -> (rint x <= rint y)%Z.
Proof.
  intros Hxy. pose proof (Qfloor_resp_le x y Hxy) as Hf.
  destruct (Z.eq_dec (Qfloor x) (Qfloor y)) as [E|NE].
  - unfold rint. rewrite <- E.
    destruct (Qcompare (x - inject_Z (Qfloor x)) (1 # 2)) eqn:Cx;
      destruct (Qcompare (y - inject_Z (Qfloor x)) (1 # 2)) eqn:Cy;
      try (destruct (Z.even (Qfloor x))); try lia;
      qcompare_hyps; exfalso; lra.
  - pose proof (rint_floor x). pose proof (rint_floor y). lia.
Qed.

Lemma scale_pos decimals : 0 < inject_Z (10 ^ Z.of_nat decimals).
Proof.
  change 0 with (inject_Z 0). rewrite <- Zlt_Qlt.
  apply Z.pow_pos_nonneg; lia.
Qed.

(** Rounding to a number of decimals keeps the order of two values, so the
    rows of a sweep over an increasing range hold parameter values that do
    not decrease. *)
Theorem round_monotone x y decimals :
  x <= y -> round x decimals <= round y decimals.
Proof.
  intros Hxy. unfold round.
  pose proof (scale_pos decimals) as HK.
  set (K := inject_Z (10 ^ Z.of_nat decimals)) in *.
  assert (Hs : x * K <= y * K) by nra.
  apply rint_monotone in Hs. rewrite Zle_Qle in Hs.
  apply Qmult_le_compat_r with (z := / K) in Hs;
    [exact Hs|apply Qlt_le_weak, Qinv_lt_0_compat, HK].
Qed.

Lemma round_monotone_witness :
  0.00012 <= 0.00018 /\ round 0.00012 4 <= round 0.00018 4.
Proof.
  split; [vm_compute; discriminate|].
  apply (round_monotone 0.00012 0.00018 4). vm_compute; discriminate.
Defined.

(** A value that has been rounded to a number of decimals is left as it is
    by rounding it again: the parameter columns of [result] hold fixed
    points of the rounding. *)
Theorem round_idempotent x decimals :
  round (round x decimals) decimals == round x decimals.
Proof.
  unfold round.
  pose proof (scale_pos decimals) as HK.
  set (K := inject_Z (10 ^ Z.of_nat decimals)) in *.
  set (z := rint (x * K)).
  assert (E : inject_Z z / K * K == inject_Z z) by (field; lra).
  rewrite (rint_comp _ _ E), rint_Z. reflexivity.
Qed.

(** ** The objective function *)

Lemma mean_abs_nonneg (l : list Q) : 0 <= mean (Qabs <$> l).
Proof.
  unfold mean. apply Qmult_le_0_compat.
  - apply Qsum_nonneg. intros x _. apply Qabs_nonneg.
  - apply Qinv_le_0_compat.
    change 0 with (inject_Z 0). rewrite <- Zle_Qle. lia.
Qed.

(** The objective of a model is never negative, and the third entry of
    every row of a sweep is an integer that is not negative. *)
Theorem objective_nonnegative inp lddcreate cmr N my_range :
  (forall m, 0 <= objective m) /\
  forall r, r ∈ (calibration inp lddcreate cmr N my_range).1 ->
    exists z, (0 <= z)%Z /\ r.2 = inject_Z z.
Proof.
  split; [intros m; apply mean_abs_nonneg|].
  intros r Hr. rewrite calibration_rows in Hr.
  apply list_elem_of_fmap in Hr as (i & -> & _).
  unfold recorded. cbn [snd]. eexists. split; [|reflexivity].
  pose proof (rint_floor (mean (Qabs <$>
    (difference inp lddcreate (MyFirstModel_init i cmr) N <$> seq 1 N)))) as H.
  pose proof (Qfloor_resp_le 0 _ (mean_abs_nonneg
    (difference inp lddcreate (MyFirstModel_init i cmr) N <$> seq 1 N))) as H0.
  change (Qfloor 0) with 0%Z in H0. lia.
Qed.

Lemma Qsum_zero_inv {A} (f : A -> Q) (l : list A) :
  (forall x, x ∈ l -> 0 <= f x) -> Qsum (f <$> l) == 0 ->
  forall x, x ∈ l -> f x == 0.
Proof.
  induction l as [|y l IH]; intros Hf Hs x Hx; [inversion Hx|].
  rewrite fmap_cons, Qsum_cons in Hs.
  pose proof (Hf y (list_elem_of_here y l)) as Hy.
  assert (Hl : 0 <= Qsum (f <$> l))
    by (apply Qsum_nonneg; intros z Hz; apply Hf, list_elem_of_further, Hz).
  apply elem_of_cons in Hx as [->|Hx]; [lra|].
  apply IH; [|lra|exact Hx].
  intros z Hz. apply Hf, list_elem_of_further, Hz.
Qed.

(** Over a horizon of at least one day the objective of a run is 0 exactly
    when the modelled discharge equals the observed discharge on every
    day. *)
Theorem objective_zero_iff_perfect_fit inp lddcreate p N :
  (0 < N)%nat ->
  objective (run inp lddcreate p N).1 == 0 <->
  forall t, (1 <= t <= N)%nat ->
    modelledDischarge inp lddcreate p N t == observed_tss inp t.
Proof.
  intros HN. rewrite objective_run.
  assert (HK : 0 < inject_Z (Z.of_nat N)).
  { change 0 with (inject_Z 0). rewrite <- Zlt_Qlt. lia. }
  set (K := inject_Z (Z.of_nat N)) in *.
  set (S := Qsum ((fun t => Qabs (difference inp lddcreate p N t))
                    <$> seq 1 N)).
  assert (Hdiv : S / K == 0 <-> S == 0).
  { split; intros E.
    - assert (E' : S == S / K * K) by (field; lra). rewrite E' , E. ring.
    - rewrite E. field. lra. }
  rewrite Hdiv. unfold S. split.
  - intros E t Ht.
    pose proof (Qsum_zero_inv _ _ (fun x _ => Qabs_nonneg _) E t) as H.
    specialize (H ltac:(apply elem_of_seq; lia)). cbv beta in H.
    unfold difference, outflow_diff, observed in H.
    unfold modelledDischarge.
    revert H. apply Qabs_case; intros; lra.
  - intros H. apply Qsum_zero. intros t Ht%elem_of_seq.
    specialize (H t ltac:(lia)).
    unfold difference, outflow_diff, observed. unfold modelledDischarge in H.
    apply Qabs_case; intros; lra.
Qed.

Lemma objective_zero_iff_perfect_fit_witness :
  let inp := single_cell [10; 0; 0] [-1; 5; 5] [0; 0.5; 0.5] in
  (0 < 3)%nat /\
  objective (run inp all_pits (MyFirstModel_init 0.1 true) 3).1 == 0.
Proof.
  cbv zeta. split; [lia|].
  apply (objective_zero_iff_perfect_fit
           (single_cell [10; 0; 0] [-1; 5; 5] [0; 0.5; 0.5]) all_pits
           (MyFirstModel_init 0.1 true) 3); [lia|].
  intros [|[|[|[|t]]]] Ht; try lia; reflexivity.
Defined.

(** ** The plot *)

(** The summary plot has one point per candidate, in the order of the
    range: the candidate rounded to 4 decimals against the rounded
    objective of its run, whichever of the two parameters is calibrated;
    no row is read beyond its third item. *)
Theorem plotted_points inp lddcreate cmr N my_range :
  plotted cmr (calibration inp lddcreate cmr N my_range).1
  = (fun i =>
       (Some (round i 4),
        Some (inject_Z (rint (objective
                (run inp lddcreate (MyFirstModel_init i cmr) N).1)))))
      <$> my_range.
Proof.
  unfold plotted. rewrite calibration_rows, <- list_fmap_compose.
  apply list_fmap_ext. intros _ i _. cbn [compose].
  unfold recorded, objective. rewrite simulation_run.
  destruct cmr; reflexivity.
Qed.

(** ** The series while a run is under way *)

(** After [d] of the [N] time steps the arrays still have [N] entries; the
    entries of the days done hold the values of those days, which later
    steps have not overwritten, and the entries of the days to come are
    still 0 in [simulation] and empty in the time series. *)
Theorem series_filled_in_order inp lddcreate p N d k :
  (d <= N)%nat ->
  let m := after inp lddcreate p N d in
  length (simulation m) = N /\ length (modelled m) = N /\
  ((k < d)%nat ->
     simulation m !! k = Some (difference inp lddcreate p N (S k)) /\
     modelled m !! k
     = Some (Some (modelledDischarge inp lddcreate p N (S k)))) /\
  ((d <= k < N)%nat ->
     simulation m !! k = Some 0 /\ modelled m !! k = Some None).
Proof.
  intros Hd m. unfold m.
  rewrite simulation_after, modelled_after by exact Hd.
  rewrite !length_app, !length_fmap, !length_seq, !length_replicate.
  split; [lia|]. split; [lia|]. split.
  - intros Hk.
    rewrite !lookup_app_l by (rewrite length_fmap, length_seq; lia).
    rewrite !list_lookup_fmap, !lookup_seq_lt by lia.
    split; reflexivity.
  - intros Hk.
    rewrite !lookup_app_r by (rewrite length_fmap, length_seq; lia).
    rewrite !length_fmap, !length_seq.
    rewrite !lookup_replicate_2 by lia. split; reflexivity.
Qed.

Lemma series_filled_in_order_witness :
  let inp := single_cell [10; 0; 0] [-1; 5; 5] [1; 1; 1] in
  let m := after inp all_pits (MyFirstModel_init 0.1 true) 3 1 in
  (1 <= 3)%nat /\ length (simulation m) = 3%nat /\
  simulation m !! 2%nat = Some 0.
Proof.
  cbv zeta. split; [lia|].
  destruct (series_filled_in_order
              (single_cell [10; 0; 0] [-1; 5; 5] [1; 1; 1]) all_pits
              (MyFirstModel_init 0.1 true) 3 1 2) as (Hl & _ & _ & Hk); [lia|].
  split; [exact Hl|]. apply Hk. lia.
Defined.

(** ** Parameters and inputs outside their physical range *)

(** A negative melt rate is accepted as it is: on a day above zero the
    actual melt is then the negative potential melt, the store grows
    though no snow falls, and the runoff is less than the precipitation. *)
Theorem negative_melt_rate_stores_water inp lddcreate p N d t c :
  meltRate p < 0 ->
  let self := after inp lddcreate p N d in
  0 < temperature inp self t c ->
  actualMelt inp self t c == temperature inp self t c * meltRate p /\
  snow self c < snow (dynamic inp self t) c /\
  runoffGenerated inp self t c < precipitation inp t.
Proof.
  intros Hm self HT.
  pose proof (snow_after_nonneg inp lddcreate p N d c) as Hs. fold self in Hs.
  destruct (after_frame inp lddcreate p N d) as (Hp & _). fold self in Hp.
  destruct (day_melting inp self t c (Qlt_le_weak _ _ HT)) as (Hsf & Hrf & Hpm).
  rewrite Hp in Hpm.
  assert (temperature inp self t c * meltRate p < 0) by nra.
  rewrite snow_dynamic.
  unfold runoffGenerated, snowRemaining, actualMelt, snowAccumulated in *.
  repeat split; qmin_cases; lra.
Qed.

Lemma negative_melt_rate_stores_water_witness :
  let inp := single_cell [2] [5] [0] in
  let p := MyFirstModel_init (-0.1) true in
  let self := after inp all_pits p 1 0 in
  meltRate p < 0 /\ snow self 0%nat < snow (dynamic inp self 1) 0%nat.
Proof.
  cbv zeta. split; [reflexivity|].
  destruct (negative_melt_rate_stores_water (single_cell [2] [5] [0])
              all_pits (MyFirstModel_init (-0.1) true) 1 0 1 0%nat)
    as (_ & H & _); [reflexivity|reflexivity|exact H].
Defined.

(** With the same elevation and temperatures, more precipitation on every
    day never leaves less snow in the store. *)
Theorem snow_monotone_in_precipitation
    inp inp' lddcreate lddcreate' p N N' d c :
  dem_map inp c = dem_map inp' c ->
  (forall t, temp_tss inp t = temp_tss inp' t) ->
  (forall t, precip_tss inp t <= precip_tss inp' t) ->
  snow (after inp lddcreate p N d) c <= snow (after inp' lddcreate' p N' d) c.
Proof.
  intros Hdem HT HP. induction d as [|d IH]; [simpl; lra|].
  specialize (HP (S d)).
  rewrite !after_S, !snow_dynamic.
  unfold snowRemaining, actualMelt, snowAccumulated, potentialMelt, snowFall,
    freezing, pcrnot, precipitation.
  rewrite !temperature_after, <- Hdem, <- HT.
  destruct (after_frame inp lddcreate p N d) as (-> & _).
  destruct (after_frame inp' lddcreate' p N' d) as (-> & _).
  set (T := temp_tss inp (S d) - _).
  destruct (Qltb T 0.0) eqn:E; cbn [negb ifthenelse]; qmin_cases; lra.
Qed.

Lemma snow_monotone_in_precipitation_witness :
  snow (after (single_cell [10; 0; 0] [-1; 5; 5] [0; 0; 0]) all_pits
          (MyFirstModel_init 0.1 true) 3 3) 0%nat
  <= snow (after (single_cell [12; 0; 1] [-1; 5; 5] [0; 0; 0]) all_pits
             (MyFirstModel_init 0.1 true) 3 3) 0%nat.
Proof.
  apply snow_monotone_in_precipitation.
  - reflexivity.
  - reflexivity.
  - intros [|[|[|[|t]]]]; vm_compute; discriminate.
Defined.

(** On doubles [numpy.arange] can reach [stop]: from 1 to 1.3 by 0.1 it has
    4 values, the last one above 1.3, where the exact range has 3.  For the
    two ranges of the script the doubles and the exact range have the same
    number of candidates. *)
Lemma arange_binary64_length :
  length (Binary64.arange 1 1.3 0.1) = 4%nat /\
  (exists x, Binary64.arange 1 1.3 0.1 !! 3%nat = Some x /\
     PrimFloat.ltb 1.3 x = true) /\
  length (arange 1 1.3 0.1) = 3%nat /\
  (forall b, length (Binary64.my_range b) = length (my_range b)).
Proof.
  split; [vm_compute; reflexivity|]. split.
  - eexists. split; vm_compute; reflexivity.
  - split; [vm_compute; reflexivity|].
    intros []; vm_compute; reflexivity.
Qed.
